(** * CourseWorkApp: the movie search server (Server.cpp)

    A shallow embedding of the inverted index, the catalog (re)load with
    its line parser, the request handler and the queue of the thread pool
    of [Server.cpp], followed by the properties of the natural-language
    specification that concern them and by further properties of the
    program.

    Modelling conventions.
    - [std::string] is [string]; [int] is [Z] (no arithmetic of the program
      comes near the 32-bit limits: years have at most four digits, rating
      buckets stop at 10, identifiers are positions in the catalog);
      [size_t] positions are [nat].
    - [float] ratings are the rational numbers they denote ([Qc], so that
      equal values are equal terms).  The program only truncates and compares
      them, which is exact on the denoted value; infinities and NaN are
      outside the model.
    - [std::unordered_map<std::string, std::unordered_set<int>>] is
      [gmap string (gset Z)]; the other sets are [gset]s.
    - Every member function of [InvertedIndex] that takes the mutex is one
      atomic step on the index. *)

From Stdlib Require Import ZArith QArith Qcanon Qround Ascii DecimalString DecimalZ.
From stdpp Require Import base option list sets gmap strings.

Set Warnings "-clear-no-such-hyp".

Local Open Scope Z_scope.

(** ** Characters and strings (the pieces of <string>, <cctype>, <sstream> used) *)

(** The double quote character, code 34. *)
Definition dquote : ascii := ascii_of_N 34.

(** [::tolower] in the "C" locale. *)
Definition tolower (c : ascii) : ascii :=
  let n := N_of_ascii c in
  if ((65 <=? n) && (n <=? 90))%N then ascii_of_N (n + 32) else c.

(** [isspace] in the "C" locale: space, and the controls 9 to 13. *)
Definition isspace (c : ascii) : bool :=
  let n := N_of_ascii c in
  ((n =? 32) || ((9 <=? n) && (n <=? 13)))%N.

Definition str_empty (s : string) : bool :=
  match s with EmptyString => true | String _ _ => false end.

(** [s += c] *)
Definition push_back (s : string) (c : ascii) : string :=
  s +:+ String c EmptyString.

(** [while (stream >> word)]: the maximal runs of non-space characters, in
    order.  [cur] is the word being read. *)
Fixpoint extract_words (s cur : string) : list string :=
  match s with
  | EmptyString => if str_empty cur then [] else [cur]
  | String c rest =>
      if isspace c
      then (if str_empty cur then extract_words rest EmptyString
            else cur :: extract_words rest EmptyString)
      else extract_words rest (push_back cur c)
  end.

Definition words (s : string) : list string := extract_words s EmptyString.

(** [while (std::getline(stream, piece, delim))]: the pieces between
    delimiters; a read that extracts nothing at the end of the stream fails,
    so an empty last piece is not produced. *)
Fixpoint getline_pieces (delim : ascii) (s cur : string) : list string :=
  match s with
  | EmptyString => if str_empty cur then [] else [cur]
  | String c rest =>
      if Ascii.eqb c delim
      then cur :: getline_pieces delim rest EmptyString
      else getline_pieces delim rest (push_back cur c)
  end.

Definition getlines (delim : ascii) (s : string) : list string :=
  getline_pieces delim s EmptyString.

(** [std::replace(s.begin(), s.end(), from, to)] *)
Fixpoint replace_char (from to : ascii) (s : string) : string :=
  match s with
  | EmptyString => EmptyString
  | String c rest =>
      String (if Ascii.eqb c from then to else c) (replace_char from to rest)
  end.

(** [hay.find(needle)]: position of the first occurrence, [None] for [npos]. *)
Definition find (needle hay : string) : option nat := String.index 0 needle hay.

(** [s.substr(pos)]: [None] stands for the [std::out_of_range] thrown when
    [pos > s.size()]. *)
Fixpoint substr (pos : nat) (s : string) : option string :=
  match pos, s with
  | O, _ => Some s
  | S p, String _ rest => substr p rest
  | S _, EmptyString => None
  end.

(** [s.substr(0, n)] *)
Fixpoint substr_to (n : nat) (s : string) : string :=
  match n, s with
  | S m, String c rest => String c (substr_to m rest)
  | _, _ => EmptyString
  end.

(** [std::to_string(int)] *)
Definition to_string (z : Z) : string := NilEmpty.string_of_int (Z.to_int z).

(** ** The catalog record *)

Module Movie.
Record t : Type := mk {
  id : Z;
  title : string;
  overview : string;
  language : string;
  genres : list string;
  year : Z;
  rating : Qc;
  posterUrl : string
}.
End Movie.
Abbreviation Movie := Movie.t.

(** [static_cast<int>(float)]: truncation toward zero. *)
Definition static_cast_int (r : Qc) : Z := Z.quot (Qnum r) (Zpos (Qden r)).

(** ** class InvertedIndex *)

Abbreviation Postings := (gset Z).
Abbreviation Index := (gmap string (gset Z)).

Module InvertedIndex.

Fixpoint toLower (str : string) : string :=
  match str with
  | EmptyString => EmptyString
  | String c rest => String (tolower c) (toLower rest)
  end.

(** The characters of the literal passed to [find_first_not_of] and
    [find_last_not_of] in [cleanWord]. *)
Definition strippable (c : ascii) : bool :=
  Ascii.eqb c dquote ||
  existsb (Ascii.eqb c)
    [" "; "."; ","; ":"; ";"; "!"; "?"; "("; ")"; "["; "]"; "{"; "}"; "<"; ">"]%char.

(** [clean.erase(0, clean.find_first_not_of(...))]: with no such character
    the position is [npos] and everything is erased. *)
Fixpoint erase_leading (s : string) : string :=
  match s with
  | EmptyString => EmptyString
  | String c rest => if strippable c then erase_leading rest else s
  end.

(** [clean.erase(clean.find_last_not_of(...) + 1)] *)
Fixpoint erase_trailing (s : string) : string :=
  match s with
  | EmptyString => EmptyString
  | String c rest =>
      let rest' := erase_trailing rest in
      if str_empty rest' && strippable c then EmptyString else String c rest'
  end.

Definition cleanWord (word : string) : string :=
  let clean := erase_leading word in
  if str_empty clean then clean else erase_trailing clean.

(** The posting list stored under [key], empty when the key is absent. *)
Definition postings (index : Index) (key : string) : Postings :=
  match index !! key with
  | Some ids => ids
  | None => ∅
  end.

(** [index[key].insert(movieId)] *)
Definition addToIndex (key : string) (movieId : Z) (index : Index) : Index :=
  <[ key := {[ movieId ]} ∪ postings index key ]> index.

(** [for (int i = from; i <= 10; ++i)] *)
Definition rating_buckets (from : Z) : list Z := seqZ from (11 - from).

(** The lambda [processText] of [addMovie]: the keys it adds for one text. *)
Definition processText (text category : string) : list string :=
  (λ word, category +:+ word) <$>
    filter (λ word, str_empty word = false)
           ((λ word, toLower (cleanWord word)) <$> words text).

(** The keys [addMovie] passes to [addToIndex], in program order. *)
Definition addMovie_keys (movie : Movie) : list string :=
  (Movie.genres movie ≫= λ genre,
     (λ word, "genre_" +:+ toLower word) <$> words genre)
  ++ ["year_" +:+ to_string (Movie.year movie)]
  ++ ["language_" +:+ toLower (Movie.language movie)]
  ++ ((λ i, "rating_" +:+ to_string i) <$>
        rating_buckets (static_cast_int (Movie.rating movie)))
  ++ processText (Movie.title movie) "title_"
  ++ processText (Movie.overview movie) "overview_".

(** [addMovie(id, movie)]: one [addToIndex] call per key, each of them a
    critical section of its own. *)
Definition addMovie (id : Z) (movie : Movie) (index : Index) : Index :=
  foldl (λ index key, addToIndex key id index) index (addMovie_keys movie).

Definition searchByCategory (index : Index) (category value : string) : Postings :=
  let key := category +:+ "_" +:+ toLower value in
  postings index key.

(** The initializer list iterated by the keyword searches. *)
Definition categories : list string :=
  ["title_"; "overview_"; "genre_"; "language_"; "year_"; "rating_"].

(** The inner loop over [categories]: the union of the posting lists found
    under [category + word]. *)
Definition keyResults (index : Index) (word : string) : Postings :=
  foldl (λ acc category, acc ∪ postings index (category +:+ word)) ∅ categories.

Definition intersectResults (baseResults additionalResults : Postings) : Postings :=
  filter (λ id, id ∈ additionalResults) baseResults.

(** The loop of [searchByKeywords], from a given [currentResults] and
    [isFirst]; the [break] is the branch that ignores the remaining keys. *)
Fixpoint searchByKeywords_from (index : Index) (keys : list string)
    (currentResults : Postings) (isFirst : bool) : Postings :=
  match keys with
  | [] => currentResults
  | key :: rest =>
      let cleanedKey := toLower (cleanWord key) in
      let keyResults := keyResults index cleanedKey in
      let currentResults :=
        if isFirst then keyResults
        else filter (λ id, id ∈ keyResults) currentResults in
      if decide (currentResults = ∅) then currentResults
      else searchByKeywords_from index rest currentResults false
  end.

Definition searchByKeywords (index : Index) (keys : list string) : Postings :=
  searchByKeywords_from index keys ∅ true.

(** [index.clear()] *)
Definition clear (index : Index) : Index := ∅.

End InvertedIndex.
Import InvertedIndex.

(** ** The global catalog state

    [invertedIndex], [movies], [genres], [languages], [years], [ratings]. *)

Record State : Type := mkState {
  invertedIndex : Index;
  movies : list Movie;
  genres : gset string;
  languages : gset string;
  years : gset Z;
  ratings : gset Qc
}.

(** ** loadMovies *)

(** What a worker makes of one line of its byte range: [Skipped] when the
    line has fewer than nine fields or [stoi]/[stof] throws, otherwise the
    converted fields (the genre list already split at commas, trimmed, and
    without empty entries).  Reading the byte range and converting the
    numbers is the environment's part. *)
Inductive Line : Type :=
| Skipped
| Parsed (title overview language : string) (genres : list string)
         (year : Z) (rating : Qc) (posterUrl : string).

(** The per-thread slots [threadMovies[i]], [threadGenres[i]], ... *)
Record ThreadData : Type := mkThreadData {
  threadMovies : list Movie;
  threadGenres : gset string;
  threadLanguages : gset string;
  threadYears : gset Z;
  threadRatings : gset Qc
}.

(** The condition under which a row is kept. *)
Definition valid (movie : Movie) : bool :=
  negb (str_empty (Movie.title movie)) &&
  negb (str_empty (Movie.overview movie)) &&
  negb (bool_decide (Movie.genres movie = [])) &&
  negb (Movie.year movie =? 0) &&
  bool_decide (0 < Movie.rating movie)%Qc.

(** One iteration of the [while (std::getline ...)] loop of [processChunk]. *)
Definition processLine (data : ThreadData) (line : Line) : ThreadData :=
  match line with
  | Skipped => data
  | Parsed title overview language genres year rating posterUrl =>
      let movie :=
        Movie.mk (Z.of_nat (length (threadMovies data)))
                 title overview language genres year rating posterUrl in
      let threadGenres' := threadGenres data ∪ list_to_set genres in
      if valid movie
      then mkThreadData (threadMovies data ++ [movie]) threadGenres'
             (threadLanguages data ∪ {[ language ]})
             (threadYears data ∪ {[ year ]})
             (threadRatings data ∪ {[ rating ]})
      else mkThreadData (threadMovies data) threadGenres'
             (threadLanguages data) (threadYears data) (threadRatings data)
  end.

Definition processChunk (lines : list Line) : ThreadData :=
  foldl processLine (mkThreadData [] ∅ ∅ ∅ ∅) lines.

(** [for (size_t i = ...; i < movies.size(); ++i) invertedIndex.addMovie(i, movies[i]);]
    from position [i] on. *)
Fixpoint addMovies_from (i : nat) (movies : list Movie) (index : Index) : Index :=
  match movies with
  | [] => index
  | movie :: rest => addMovies_from (S i) rest (addMovie (Z.of_nat i) movie index)
  end.

(** The rebuild at the end of [loadMovies], on the live index. *)
Definition rebuildIndex (movies : list Movie) (index : Index) : Index :=
  addMovies_from 0 movies (clear index).

(** What [loadMovies] writes to [std::cerr] or [std::cout]. *)
Inductive Console : Type :=
| CerrUnableToOpenFile
| CoutLoaded (numThreads : nat).

(** [loadMovies(filePath, numThreads)].  [file] is [None] when the file
    cannot be opened, and otherwise gives, per worker thread, the lines of
    its chunk ([numThreads] is the number of chunks). *)
Definition loadMovies (file : option (list (list Line))) (st : State)
    : State * Console :=
  match file with
  | None => (st, CerrUnableToOpenFile)
  | Some chunks =>
      let threads := processChunk <$> chunks in
      let movies := concat (threadMovies <$> threads) in
      (mkState (rebuildIndex movies (invertedIndex st))
               movies
               (⋃ (threadGenres <$> threads))
               (⋃ (threadLanguages <$> threads))
               (⋃ (threadYears <$> threads))
               (⋃ (threadRatings <$> threads)),
       CoutLoaded (length chunks))
  end.

(** ** The reload as a sequence of critical sections

    The rebuild works on the index the searches use: [clear] and every
    [addToIndex] take and release the mutex, so a search that takes the
    mutex in between ([searchByCategory], [searchByKeywords]) sees the
    index after some number of these steps.  The other globals are written
    and read without a lock; what a concurrent reader sees of them is not
    modelled. *)

Inductive IndexOp : Type :=
| OpClear
| OpAddToIndex (key : string) (movieId : Z).

Definition runOp (index : Index) (op : IndexOp) : Index :=
  match op with
  | OpClear => clear index
  | OpAddToIndex key movieId => addToIndex key movieId index
  end.

Fixpoint addMovies_ops (i : nat) (movies : list Movie) : list IndexOp :=
  match movies with
  | [] => []
  | movie :: rest =>
      ((λ key, OpAddToIndex key (Z.of_nat i)) <$> addMovie_keys movie)
      ++ addMovies_ops (S i) rest
  end.

Definition rebuildOps (movies : list Movie) : list IndexOp :=
  OpClear :: addMovies_ops 0 movies.

(** The live index once the reloading thread has done [n] of its steps. *)
Definition indexDuringRebuild (n : nat) (movies : list Movie) (index : Index) : Index :=
  foldl runOp index (take n (rebuildOps movies)).

(** ** handleClient *)

Inductive Listing : Type :=
| NoMovies
| MoviesListed (ids : Postings).

Definition listing (results : Postings) : Listing :=
  if decide (results = ∅) then NoMovies else MoviesListed results.

Inductive Sort : Type := Unsorted | RatingAsc | RatingDesc.

(** The three documents the server sends, by the data they are built from
    (the markup around it is fixed text). *)
Inductive Response : Type :=
| SearchForm (genres : gset string) (years : gset Z) (languages : gset string)
| ResultsPage (genre year language keywords : string) (sort : Sort) (shown : Listing)
| PlainText (shown : Listing).

Inductive Event : Type :=
| Send (response : Response)
| CloseSocket
| Terminate.   (* an exception leaves the worker thread *)

(** [params[key]] when reading: the empty string for a missing key. *)
Definition param (params : gmap string string) (key : string) : string :=
  default EmptyString (params !! key).

(** The loop filling [params] from the request body. *)
Definition parseParams (body : string) : gmap string string :=
  foldl (λ params pair,
           match find "=" pair with
           | Some eqPos =>
               <[ substr_to eqPos pair :=
                    default EmptyString (substr (S eqPos) pair) ]> params
           | None => <[ pair := pair ]> params   (* npos: both substr give pair *)
           end)
        ∅ (getlines "&" body).

(** [if (results.empty()) results = matches; else results = intersectResults(results, matches);] *)
Definition narrow (results matches : Postings) : Postings :=
  if decide (results = ∅) then matches else intersectResults results matches.

(** The genre block: the running [genreResults] over the words of the field. *)
Definition genreResults (index : Index) (genreField : string) : Postings :=
  foldl (λ genreResults word, narrow genreResults (searchByCategory index "genre" word))
        ∅ (words (replace_char "+" " " genreField)).

(** The vector [keywords] built from the field of the form. *)
Definition postKeywords (keywordsField : string) : list string :=
  filter (λ keyword, str_empty keyword = false)
         ((λ keyword, toLower (cleanWord keyword)) <$> getlines "+" keywordsField).

(** "Search logic based on form parameters": the set [results]. *)
Definition postSearch (index : Index) (params : gmap string string) : Postings :=
  let results : Postings := ∅ in
  let results :=
    if str_empty (param params "genre") then results
    else narrow results (genreResults index (param params "genre")) in
  let results :=
    if str_empty (param params "year") then results
    else narrow results (searchByCategory index "year" (param params "year")) in
  let results :=
    if str_empty (param params "language") then results
    else narrow results (searchByCategory index "language" (param params "language")) in
  if str_empty (param params "keywords") then results
  else foldl (λ results word, narrow results (keyResults index word))
             results (postKeywords (param params "keywords")).

Definition sortOf (params : gmap string string) : Sort :=
  if String.eqb (param params "sort") "rating_asc" then RatingAsc
  else if String.eqb (param params "sort") "rating_desc" then RatingDesc
  else Unsorted.

(** Carriage return, line feed, twice. *)
Definition blankLine : string :=
  String (ascii_of_N 13) (String (ascii_of_N 10)
    (String (ascii_of_N 13) (String (ascii_of_N 10) EmptyString))).

(** [request.substr(request.find(blankLine) + 4)]; [npos + 4] is 3. *)
Definition requestBody (request : string) : option string :=
  substr (match find blankLine request with Some p => p + 4 | None => 3 end)%nat
         request.

(** [hay.find(needle) != std::string::npos] *)
Definition found (needle hay : string) : bool :=
  match find needle hay with Some _ => true | None => false end.

(** [hay.find(needle) == 0] *)
Definition found_at_0 (needle hay : string) : bool :=
  match find needle hay with Some O => true | _ => false end.

Definition getBlock (request : string) (st : State) : list Event :=
  if found "GET" request
  then [Send (SearchForm (genres st) (years st) (languages st))]
  else [].

Definition postBlock (request : string) (st : State) : list Event :=
  if found "POST" request
  then match requestBody request with
       | None => [Terminate]
       | Some body =>
           let params := parseParams body in
           [Send (ResultsPage (param params "genre") (param params "year")
                              (param params "language") (param params "keywords")
                              (sortOf params)
                              (listing (postSearch (invertedIndex st) params)))]
       end
  else [].

(** The vector [keywordsVec] of the SEARCH command. *)
Definition searchKeywords (text : string) : list string :=
  filter (λ keyword, str_empty keyword = false)
         ((λ keyword, toLower (cleanWord keyword)) <$> words text).

Definition searchBlock (request : string) (st : State) : list Event :=
  match substr 7 request with
  | None => [Terminate]
  | Some keywords =>
      [Send (PlainText (listing (searchByKeywords (invertedIndex st)
                                                   (searchKeywords keywords))));
       CloseSocket]
  end.

(** Does a list of events end the run of the handler early? *)
Definition terminated (events : list Event) : bool :=
  match last events with Some Terminate => true | _ => false end.

(** [handleClient].  [received] is [None] when [recv] returns no data, and
    otherwise the text of the buffer.  The result is what the handler does
    on the socket, in order. *)
Definition handleClient (received : option string) (st : State) : list Event :=
  match received with
  | None => [CloseSocket]
  | Some request =>
      let done := getBlock request st in
      let done := done ++ postBlock request st in
      if terminated done then done
      else if found_at_0 "SEARCH" request
           then done ++ searchBlock request st
           else done ++ [CloseSocket]
  end.

(** ** The specification's wording, for comparison with the program *)

Module Spec.

(** The six categories of posting tokens. *)
Definition categoryNames : list string :=
  ["title"; "overview"; "genre"; "language"; "year"; "rating"].

(** Normalization: trimmed of the punctuation set, lowercased. *)
Definition normalize (value : string) : string := toLower (cleanWord value).

(** A value is normalized when normalization leaves it as it is. *)
Definition normalized (value : string) : Prop := normalize value = value.

(** The posting token of a category and a value, with the separator of the
    index. *)
Definition token (category value : string) : string :=
  category +:+ "_" +:+ value.

(** A key of the form [category + sep + normalized_value] for one of the
    six categories. *)
Definition tokenForm (sep key : string) : Prop :=
  ∃ category value,
    category ∈ categoryNames ∧ normalized value ∧
    key = category +:+ sep +:+ value.

(** The union, over the six categories, of the posting lists of the tokens
    of one keyword, normalized. *)
Definition keywordUnion (index : Index) (keyword : string) : Postings :=
  ⋃ ((λ category, postings index (token category (normalize keyword)))
       <$> categoryNames).

(** The intersection of a sequence of sets, taken in order; nothing is
    matched when there is no set to narrow by. *)
Definition intersection (sets : list Postings) : Postings :=
  match sets with
  | [] => ∅
  | first :: others => foldl (∩) first others
  end.

(** Keyword lookup without the short-circuit: every keyword is evaluated. *)
Definition naiveKeywordSearch (index : Index) (keys : list string) : Postings :=
  intersection (keywordUnion index <$> keys).

(** The result sets of the filters a POST request supplies: genre (every
    word looked up and intersected), year, language, and the conjunctive
    keyword match set. *)
Definition suppliedFilters (index : Index) (params : gmap string string)
    : list Postings :=
  (if str_empty (param params "genre") then []
   else [intersection (searchByCategory index "genre" <$>
                         words (replace_char "+" " " (param params "genre")))])
  ++ (if str_empty (param params "year") then []
      else [searchByCategory index "year" (param params "year")])
  ++ (if str_empty (param params "language") then []
      else [searchByCategory index "language" (param params "language")])
  ++ (if str_empty (param params "keywords") then []
      else [searchByKeywords index (postKeywords (param params "keywords"))]).

(** The intersection of the results of all supplied filters. *)
Definition filteredSearch (index : Index) (params : gmap string string) : Postings :=
  intersection (suppliedFilters index params).

(** The new generation is invisible until it is complete: a search that
    runs while a reload is in progress sees, for every token, the whole
    posting list of the old generation or the whole posting list of the
    new one. *)
Definition oneGeneration (observed old new : Index) : Prop :=
  ∀ key, postings observed key = postings old key
         ∨ postings observed key = postings new key.

End Spec.

(** ** Sample data *)

Module Sample.

Definition inception : Line :=
  Parsed "Inception" "A thief who steals corporate secrets" "en"
         ["Science Fiction"; "Action"] 2010 (Q2Qc (88 # 10)) "inception.jpg".

Definition heat : Line :=
  Parsed "Heat" "A group of professional bank robbers" "en"
         ["Action"; "Crime"] 1995 (Q2Qc (73 # 10)) "heat.jpg".

Definition noState : State := mkState ∅ [] ∅ ∅ ∅ ∅.

(** The state after loading a file with the single row [inception]. *)
Definition oneMovie : State := (loadMovies (Some [[inception]]) noState).1.

(** The state after loading a file with two rows, read by two workers. *)
Definition twoMovies : State := (loadMovies (Some [[inception]; [heat]]) noState).1.

(** A browser's POST of the search form. *)
Definition post (body : string) : string :=
  "POST / HTTP/1.1" +:+ blankLine +:+ body.

(** The request [Client.cpp] sends for a line typed by the user:
    ["SEARCH " + input + "\n"]. *)
Definition clientRequest (input : string) : string :=
  "SEARCH " +:+ input +:+ String (ascii_of_N 10) EmptyString.

End Sample.

(** ** More of the program: reading a line of the catalog file *)

(** Does every character of [s] satisfy [p]? *)
Fixpoint string_forall (p : ascii → bool) (s : string) : bool :=
  match s with
  | EmptyString => true
  | String c rest => p c && string_forall p rest
  end.

(** The pieces, with [sep] between them. *)
Fixpoint join (sep : string) (pieces : list string) : string :=
  match pieces with
  | [] => EmptyString
  | [piece] => piece
  | piece :: rest => piece +:+ sep +:+ join sep rest
  end.

(** The loop [for (char c : line)] of [processChunk] with its closing
    [fields.push_back(current)]: the fields of the rest of the line, given
    the field being read and whether a quote is open. *)
Fixpoint parseFields_from (line current : string) (inQuotes : bool) : list string :=
  match line with
  | EmptyString => [current]
  | String c rest =>
      if Ascii.eqb c dquote then parseFields_from rest current (negb inQuotes)
      else if Ascii.eqb c "," && negb inQuotes
           then current :: parseFields_from rest EmptyString inQuotes
           else parseFields_from rest (push_back current c) inQuotes
  end.

Definition parseFields (line : string) : list string :=
  parseFields_from line EmptyString false.

(** [s.erase(0, s.find_first_not_of(set))] for the characters [p] of [set]. *)
Fixpoint trim_leading (p : ascii → bool) (s : string) : string :=
  match s with
  | EmptyString => EmptyString
  | String c rest => if p c then trim_leading p rest else s
  end.

(** [s.erase(s.find_last_not_of(set) + 1)]; with no such character the
    position is [npos + 1 = 0] and everything is erased. *)
Fixpoint trim_trailing (p : ascii → bool) (s : string) : string :=
  match s with
  | EmptyString => EmptyString
  | String c rest =>
      let rest' := trim_trailing p rest in
      if str_empty rest' && p c then EmptyString else String c rest'
  end.

(** The characters erased around a genre: space and double quote. *)
Definition aroundGenre (c : ascii) : bool :=
  Ascii.eqb c " " || Ascii.eqb c dquote.

(** "Parse and clean genres": the vector [movie.genres] made of field 7. *)
Definition parseGenres (field : string) : list string :=
  filter (λ genre, str_empty genre = false)
         ((λ genre, trim_trailing aroundGenre (trim_leading aroundGenre genre))
            <$> getlines "," field).

(** The value of a decimal digit. *)
Definition digit (c : ascii) : option Z :=
  let n := N_of_ascii c in
  if ((48 <=? n) && (n <=? 57))%N then Some (Z.of_N n - 48) else None.

(** The digits at the start of [s] as a number, from the value [acc] read
    so far ([None] as long as no digit was read). *)
Fixpoint read_digits (s : string) (acc : option Z) : option Z :=
  match s with
  | EmptyString => acc
  | String c rest =>
      match digit c with
      | Some d => read_digits rest (Some (10 * default 0 acc + d))
      | None => acc
      end
  end.

(** [std::stoi(s)]: leading white space, an optional sign, decimal digits;
    [None] for [std::invalid_argument] (no digit) and [std::out_of_range]. *)
Definition stoi (s : string) : option Z :=
  let s := trim_leading isspace s in
  let '(negative, s) :=
    match s with
    | String c rest =>
        if Ascii.eqb c "-" then (true, rest)
        else if Ascii.eqb c "+" then (false, rest)
        else (false, s)
    | EmptyString => (false, s)
    end in
  match read_digits s None with
  | None => None
  | Some n =>
      let value := if negative then - n else n in
      if (- 2 ^ 31 <=? value) && (value <=? 2 ^ 31 - 1) then Some value else None
  end.

(** [fields[i]], for the positions below 9 read after the size check. *)
Definition fieldAt (fields : list string) (i : nat) : string :=
  default EmptyString (fields !! i).

Section parseLine.

(** [std::stof] is taken as given: the value it converts a field to, or
    [None] when it throws. *)
Variable stof : string → option Qc.

(** The body of the [while (std::getline ...)] loop of [processChunk] up to
    the validation: the split into fields, the size check and the [try]
    block (the year is converted first, the rating second, the genres
    last). *)
Definition parseLine (line : string) : Line :=
  let fields := parseFields line in
  if (length fields <? 9)%nat then Skipped
  else
    match (if str_empty (fieldAt fields 0) then Some 0
           else stoi (substr_to 4 (fieldAt fields 0))) with
    | None => Skipped
    | Some year =>
        match (if str_empty (fieldAt fields 5) then Some (Q2Qc 0)
               else stof (fieldAt fields 5)) with
        | None => Skipped
        | Some rating =>
            Parsed (fieldAt fields 1) (fieldAt fields 2) (fieldAt fields 6)
                   (parseGenres (fieldAt fields 7)) year rating
                   (fieldAt fields 8)
        end
    end.

(** [processChunk] on the text lines a worker reads. *)
Definition processChunkLines (lines : list string) : ThreadData :=
  processChunk (parseLine <$> lines).

End parseLine.

(** ** More of the program: class ThreadPool

    The queue and the flag, and the critical sections on them: [enqueue],
    the destructor's [stop = true], and the block of a worker from the
    return of [cv.wait] to [tasks.pop()]. *)

Abbreviation SOCKET := N.

Module ThreadPool.

Record t : Type := mk {
  tasks : list SOCKET;
  stop : bool
}.

(** The pool as constructed. *)
Definition init : t := mk [] false.

(** [enqueue(clientSocket)] *)
Definition enqueue (clientSocket : SOCKET) (pool : t) : t :=
  mk (tasks pool ++ [clientSocket]) (stop pool).

(** The destructor's critical section. *)
Definition shutdown (pool : t) : t := mk (tasks pool) true.

(** What a worker does when it holds the lock. *)
Inductive Taken : Type :=
| Waits                          (* the predicate of [cv.wait] is false *)
| Exits                          (* [return]: the thread ends *)
| Handles (clientSocket : SOCKET).   (* [handleClient(clientSocket)] follows *)

(** One turn of a worker: the wait predicate [stop || !tasks.empty()], the
    exit test [stop && tasks.empty()], and [front]/[pop]. *)
Definition workerTurn (pool : t) : Taken * t :=
  match tasks pool with
  | [] => if stop pool then (Exits, pool) else (Waits, pool)
  | clientSocket :: rest => (Handles clientSocket, mk rest (stop pool))
  end.

(** The critical sections, in the order in which the lock is granted. *)
Inductive Op : Type :=
| OpEnqueue (clientSocket : SOCKET)
| OpWorker
| OpShutdown.

(** The pool after a sequence of critical sections, with the sockets handed
    to [handleClient] so far, in order. *)
Fixpoint run (ops : list Op) (pool : t) (handled : list SOCKET) : t * list SOCKET :=
  match ops with
  | [] => (pool, handled)
  | OpEnqueue clientSocket :: rest => run rest (enqueue clientSocket pool) handled
  | OpShutdown :: rest => run rest (shutdown pool) handled
  | OpWorker :: rest =>
      match workerTurn pool with
      | (Handles clientSocket, pool') => run rest pool' (handled ++ [clientSocket])
      | (_, pool') => run rest pool' handled
      end
  end.

(** The sockets a sequence of critical sections enqueues, in order. *)
Definition enqueued (ops : list Op) : list SOCKET :=
  ops ≫= λ op, match op with OpEnqueue clientSocket => [clientSocket] | _ => [] end.

End ThreadPool.

(** ** Form bodies, for the round trip through [parseParams] *)

(** The body a form with the given fields is submitted as. *)
Definition formBody (fields : list (string * string)) : string :=
  join "&" ((λ field, field.1 +:+ "=" +:+ field.2) <$> fields).

(** Does [c] occur in [s]? *)
Definition occurs (c : ascii) (s : string) : bool :=
  negb (string_forall (λ c', negb (Ascii.eqb c' c)) s).

(** The genres a worker inserts into [threadGenres] for a line. *)
Definition lineGenres (line : Line) : list string :=
  match line with
  | Skipped => []
  | Parsed _ _ _ genres _ _ _ => genres
  end.

(** ** The running result of the POST search and the filters applied

    [agrees r sets]: nothing was applied and [r] is empty, or [r] contains
    the intersection of the result sets applied so far and is equal to it
    when the intersection is not empty. *)
Definition agrees (r : Postings) (sets : list Postings) : Prop :=
  (sets = [] ∧ r = ∅)
  ∨ (sets ≠ [] ∧ Spec.intersection sets ⊆ r
     ∧ (Spec.intersection sets ≠ ∅ → r = Spec.intersection sets)).

(** ** The keys of a movie, category by category

    [keyOf movie key]: [key] is [category + "_" + value] where the value
    is, for [genre], a lowercased word of one of the genres; for [year],
    the year in decimal; for [language], the lowercased language; for
    [rating], the decimal of a bucket from the truncated rating to 10; for
    [title] and [overview], a word of the text, cleaned and lowercased,
    that is not empty. *)
Definition keyOf (movie : Movie) (key : string) : Prop :=
  ∃ category value,
    key = category +:+ "_" +:+ value ∧
    ((category = "genre" ∧
      ∃ genre word, genre ∈ Movie.genres movie ∧ word ∈ words genre
                    ∧ value = toLower word)
     ∨ (category = "year" ∧ value = to_string (Movie.year movie))
     ∨ (category = "language" ∧ value = toLower (Movie.language movie))
     ∨ (category = "rating" ∧
        ∃ k, static_cast_int (Movie.rating movie) ≤ k ≤ 10 ∧ value = to_string k)
     ∨ (category = "title" ∧
        ∃ word, word ∈ words (Movie.title movie)
                ∧ value = toLower (cleanWord word) ∧ value ≠ EmptyString)
     ∨ (category = "overview" ∧
        ∃ word, word ∈ words (Movie.overview movie)
                ∧ value = toLower (cleanWord word) ∧ value ≠ EmptyString)).

(** A movie whose genre ends with a full stop. *)
Definition wallE : Movie :=
  Movie.mk 0 "WALL-E" "A robot cleans the Earth" "en" ["Sci-Fi."] 2008
           (Q2Qc (81 # 10)) "walle.jpg".

(** ** The buffer of [handleClient]

    [char buffer[BUFFER_SIZE] = {0}], one [recv] of at most [BUFFER_SIZE]
    bytes, and [std::string request(buffer)]. *)

Definition BUFFER_SIZE : nat := 4096.

(** The terminator of a C string. *)
Definition NUL : ascii := ascii_of_N 0.

(** The characters before the first [NUL]. *)
Fixpoint c_str (bytes : string) : string :=
  match bytes with
  | EmptyString => EmptyString
  | String c rest => if Ascii.eqb c NUL then EmptyString else String c (c_str rest)
  end.

(** The text of [request] when one [recv] delivers the bytes [arrived] (as
    many of them as the buffer takes).  [None]: the buffer is full and
    holds no [NUL], so that the text has no end inside the buffer. *)
Definition bufferText (arrived : string) : option string :=
  let read := substr_to BUFFER_SIZE arrived in
  if (String.length read <? BUFFER_SIZE)%nat || occurs NUL read
  then Some (c_str read)
  else None.

(** [handleClient] on a connection over which one [recv] delivers the bytes
    [arrived]; nothing arrives when the peer has closed the connection.
    [None]: the buffer has no terminator, and [std::string request(buffer)]
    reads past its end. *)
Definition handleClient_recv (arrived : string) (st : State)
    : option (list Event) :=
  if str_empty arrived then Some (handleClient None st)
  else match bufferText arrived with
       | Some request => Some (handleClient (Some request) st)
       | None => None
       end.

(** A line of 4088 characters. *)
Definition longLine : string := Nat.iter 4088 (String "a") EmptyString.

(** * Properties of the embedding *)

(** ** The index as the record of the [addToIndex] calls *)

Section index_facts.
Implicit Types (index : Index) (key : string) (id : Z) (movie : Movie).

Lemma postings_empty key : postings ∅ key = ∅.
Proof. unfold postings. by rewrite lookup_empty. Qed.

Lemma elem_of_postings index key id :
  id ∈ postings index key ↔ ∃ ids, index !! key = Some ids ∧ id ∈ ids.
Proof.
  unfold postings. destruct (index !! key) as [ids|]; [naive_solver|].
  split; [set_solver | by intros (? & ? & ?)].
Qed.

Lemma postings_addToIndex index key key' id :
  postings (addToIndex key id index) key' =
  if decide (key = key') then {[ id ]} ∪ postings index key' else postings index key'.
Proof.
  unfold addToIndex. unfold postings at 1.
  rewrite lookup_insert. case_decide; by subst.
Qed.

Lemma elem_of_postings_addToIndex index key key' id id' :
  id' ∈ postings (addToIndex key id index) key' ↔
  id' ∈ postings index key' ∨ (key' = key ∧ id' = id).
Proof. rewrite postings_addToIndex. case_decide; set_solver. Qed.

Lemma dom_addToIndex index key id :
  dom (addToIndex key id index) = {[ key ]} ∪ dom index.
Proof. unfold addToIndex. by rewrite dom_insert_L. Qed.

Lemma elem_of_postings_add_keys index (keys : list string) key id id' :
  id' ∈ postings (foldl (λ index key, addToIndex key id index) index keys) key ↔
  id' ∈ postings index key ∨ (key ∈ keys ∧ id' = id).
Proof.
  revert index. induction keys as [|k keys IH]; intros index; simpl.
  - set_solver.
  - rewrite IH, elem_of_postings_addToIndex, elem_of_cons. naive_solver.
Qed.

Lemma dom_add_keys index (keys : list string) id :
  dom (foldl (λ index key, addToIndex key id index) index keys) =
  list_to_set keys ∪ dom index.
Proof.
  revert index. induction keys as [|k keys IH]; intros index; simpl.
  - set_solver.
  - rewrite IH, dom_addToIndex. set_solver.
Qed.

Lemma elem_of_postings_addMovie index movie key id id' :
  id' ∈ postings (addMovie id movie index) key ↔
  id' ∈ postings index key ∨ (key ∈ addMovie_keys movie ∧ id' = id).
Proof. apply elem_of_postings_add_keys. Qed.

Lemma elem_of_postings_addMovies_from (movies : list Movie) i index key id :
  id ∈ postings (addMovies_from i movies index) key ↔
  id ∈ postings index key ∨
  ∃ j movie, movies !! j = Some movie ∧ key ∈ addMovie_keys movie
             ∧ id = Z.of_nat (i + j).
Proof.
  revert i index. induction movies as [|m movies IH]; intros i index; simpl.
  - split; [auto | intros [?|(j & ? & Hj & _)]; [done | by destruct j]].
  - rewrite IH, elem_of_postings_addMovie. split.
    + intros [[?|[? ->]]|(j & movie & ? & ? & ->)]; [by left|right..].
      * exists 0%nat, m. rewrite Nat.add_0_r. done.
      * exists (S j), movie. split_and!; [done..|f_equal; lia].
    + intros [?|(j & movie & Hj & ? & ->)]; [by left; left|].
      destruct j as [|j]; simpl in Hj.
      * injection Hj as ->. left; right. rewrite Nat.add_0_r. done.
      * right. exists j, movie. split_and!; [done..|f_equal; lia].
Qed.

Lemma dom_addMovies_from (movies : list Movie) i index key :
  key ∈ dom (addMovies_from i movies index) ↔
  key ∈ dom index ∨ ∃ movie, movie ∈ movies ∧ key ∈ addMovie_keys movie.
Proof.
  revert i index. induction movies as [|m movies IH]; intros i index; simpl.
  - split; [auto | intros [?|(? & []%elem_of_nil & _)]; done].
  - rewrite IH. unfold addMovie. rewrite dom_add_keys.
    rewrite elem_of_union, elem_of_list_to_set.
    setoid_rewrite elem_of_cons. naive_solver.
Qed.

(** The rebuilt index holds exactly what the [addMovie] calls put there:
    [id] is listed under [key] iff [key] is one of the keys of the movie at
    position [id]. *)
Lemma elem_of_postings_rebuildIndex (movies : list Movie) index key id :
  id ∈ postings (rebuildIndex movies index) key ↔
  ∃ j movie, movies !! j = Some movie ∧ key ∈ addMovie_keys movie
             ∧ id = Z.of_nat j.
Proof.
  unfold rebuildIndex, clear. rewrite elem_of_postings_addMovies_from.
  rewrite postings_empty. set_solver.
Qed.

Lemma dom_rebuildIndex (movies : list Movie) index key :
  key ∈ dom (rebuildIndex movies index) ↔
  ∃ movie, movie ∈ movies ∧ key ∈ addMovie_keys movie.
Proof.
  unfold rebuildIndex, clear. rewrite dom_addMovies_from. set_solver.
Qed.

End index_facts.

(** ** Strings: lowercase, decimal numerals, key prefixes *)

Section string_facts.

Lemma tolower_idemp c : tolower (tolower c) = tolower c.
Proof. by destruct c as [[] [] [] [] [] [] [] []]. Qed.

Lemma toLower_idemp s : toLower (toLower s) = toLower s.
Proof. induction s as [|c s IH]; simpl; [done|]. by rewrite tolower_idemp, IH. Qed.

Lemma toLower_string_of_uint d :
  toLower (NilEmpty.string_of_uint d) = NilEmpty.string_of_uint d.
Proof. induction d; simpl; by f_equal. Qed.

(** A decimal numeral has no uppercase letter. *)
Lemma toLower_to_string z : toLower (to_string z) = to_string z.
Proof.
  unfold to_string. destruct (Z.to_int z) as [d|d]; simpl.
  - apply toLower_string_of_uint.
  - f_equal. apply toLower_string_of_uint.
Qed.

Lemma to_string_inj a b : to_string a = to_string b → a = b.
Proof.
  unfold to_string. intros Heq.
  apply (f_equal NilEmpty.int_of_string) in Heq.
  rewrite !NilEmpty.isi in Heq. injection Heq as Heq.
  apply (f_equal Z.of_int) in Heq. by rewrite !DecimalZ.of_to in Heq.
Qed.

Lemma app_string_inj (prefix s t : string) : prefix +:+ s = prefix +:+ t → s = t.
Proof. induction prefix as [|c p IH]; simpl; [done|]. intros [=]. auto. Qed.

Lemma str_empty_false_iff s : str_empty s = false ↔ s ≠ EmptyString.
Proof. by destruct s. Qed.

End string_facts.

(** ** The keys of one movie *)

Section key_facts.
Implicit Types (movie : Movie) (key value : string).

(** Membership in [addMovie_keys], group by group. *)
Lemma elem_of_addMovie_keys movie key :
  key ∈ addMovie_keys movie ↔
    (∃ genre word, genre ∈ Movie.genres movie ∧ word ∈ words genre
                   ∧ key = "genre_" +:+ toLower word)
    ∨ key = "year_" +:+ to_string (Movie.year movie)
    ∨ key = "language_" +:+ toLower (Movie.language movie)
    ∨ (∃ k, static_cast_int (Movie.rating movie) ≤ k ≤ 10
            ∧ key = "rating_" +:+ to_string k)
    ∨ key ∈ processText (Movie.title movie) "title_"
    ∨ key ∈ processText (Movie.overview movie) "overview_".
Proof.
  unfold addMovie_keys, rating_buckets.
  rewrite !elem_of_app, !list_elem_of_singleton, list_elem_of_bind, list_elem_of_fmap.
  split.
  - intros [(genre & (word & -> & ?)%list_elem_of_fmap & ?)
           |[->|[->|[(k & -> & ?%elem_of_seqZ)|[?|?]]]]]; eauto 10.
    do 3 right; left. exists k. split; [lia|done].
  - intros [(genre & word & ? & ? & ->)|[->|[->|[(k & ? & ->)|[?|?]]]]]; eauto 10.
    + left. exists genre. split; [|done]. apply list_elem_of_fmap. eauto.
    + do 3 right; left. exists k. split; [done|]. apply elem_of_seqZ. lia.
Qed.

Lemma elem_of_processText text category key :
  key ∈ processText text category ↔
  ∃ word, word ∈ words text ∧ toLower (cleanWord word) ≠ EmptyString
          ∧ key = category +:+ toLower (cleanWord word).
Proof.
  unfold processText. rewrite list_elem_of_fmap. split.
  - intros (w & -> & (Hne & (word & -> & ?)%list_elem_of_fmap)%list_elem_of_filter).
    exists word. by rewrite <-str_empty_false_iff.
  - intros (word & ? & Hne & ->). eexists. split; [done|].
    apply list_elem_of_filter. split; [by apply str_empty_false_iff|].
    apply list_elem_of_fmap. eauto.
Qed.

(** Only the rating loop produces keys that start with [rating_]. *)
Lemma rating_key_in_addMovie_keys movie value :
  "rating_" +:+ value ∈ addMovie_keys movie ↔
  ∃ k, static_cast_int (Movie.rating movie) ≤ k ≤ 10 ∧ value = to_string k.
Proof.
  rewrite elem_of_addMovie_keys. setoid_rewrite elem_of_processText. split.
  - intros [(? & ? & _ & _ & [=])|[[=]|[[=]|[(k & ? & Hk)|[(? & _ & _ & [=])|(? & _ & _ & [=])]]]]].
    exists k. split; [done|]. by apply (app_string_inj "rating_").
  - intros (k & ? & ->). do 3 right. left. by exists k.
Qed.

End key_facts.

(** ** Rating buckets *)

Section rating.

Lemma static_cast_int_floor (r : Qc) : (0 < r)%Qc → static_cast_int r = Qfloor r.
Proof.
  destruct r as [[n d] Hcanon]. unfold Qclt, Qlt, static_cast_int; simpl.
  intros Hpos. apply Z.quot_div_nonneg; lia.
Qed.

(** The rating buckets an indexed movie is listed in, for every rating. *)
Lemma rating_bucket_of_indexed (movies : list Movie) (index : Index) i movie k :
  movies !! i = Some movie →
  Z.of_nat i ∈ searchByCategory (rebuildIndex movies index) "rating" (to_string k)
  ↔ static_cast_int (Movie.rating movie) ≤ k ≤ 10.
Proof.
  intros Hi. unfold searchByCategory. rewrite toLower_to_string.
  rewrite elem_of_postings_rebuildIndex.
  change ("rating" +:+ "_" +:+ to_string k) with ("rating_" +:+ to_string k).
  split.
  - intros (j & movie' & Hj & Hkey & Heq). apply Nat2Z.inj in Heq as <-.
    rewrite Hi in Hj. injection Hj as <-.
    apply rating_key_in_addMovie_keys in Hkey as (k' & ? & ->%to_string_inj).
    done.
  - intros Hk. exists i, movie. split_and!; [done| |done].
    apply rating_key_in_addMovie_keys. eauto.
Qed.

(** C5. For every indexed item with a rating [r > 0] (so in particular for
    every [0 < r <= 10]), the identifier of the item is in the posting list
    of the rating bucket [k] exactly for the integers [k] with
    [floor r <= k <= 10]: it is in every bucket from [floor r] to 10 and in
    no bucket below [floor r].  The identifier of an item is its position
    in the catalog, and the bucket is read with the category lookup. *)
Theorem rating_buckets_from_floor (movies : list Movie) (index : Index) i movie k :
  movies !! i = Some movie →
  (0 < Movie.rating movie)%Qc →
  Z.of_nat i ∈ searchByCategory (rebuildIndex movies index) "rating" (to_string k)
  ↔ Qfloor (Movie.rating movie) ≤ k ≤ 10.
Proof.
  intros Hi Hpos. rewrite <-static_cast_int_floor by done.
  by apply rating_bucket_of_indexed.
Qed.

End rating.

(** ** What the searches return *)

Section search_facts.
Implicit Types (index : Index) (id : Z) (results matches : Postings).

Lemma intersectResults_intersection (baseResults additionalResults : Postings) :
  intersectResults baseResults additionalResults = baseResults ∩ additionalResults.
Proof. unfold intersectResults. set_solver. Qed.

Lemma foldl_union_postings index (f : string → string) (l : list string) acc :
  foldl (λ acc c, acc ∪ postings index (f c)) acc l
  = acc ∪ ⋃ ((λ c, postings index (f c)) <$> l).
Proof.
  revert acc. induction l as [|c l IH]; intros acc; simpl.
  - set_solver.
  - rewrite IH. set_solver.
Qed.

Lemma keyResults_union index word :
  keyResults index word
  = ⋃ ((λ category, postings index (category +:+ word)) <$> categories).
Proof.
  unfold keyResults.
  rewrite (foldl_union_postings index (λ category, category +:+ word)).
  set_solver.
Qed.

Lemma elem_of_keyResults index word id :
  id ∈ keyResults index word ↔
  ∃ category, category ∈ categories ∧ id ∈ postings index (category +:+ word).
Proof.
  rewrite keyResults_union, elem_of_union_list. split.
  - intros (X & (category & -> & ?)%list_elem_of_fmap & ?). eauto.
  - intros (category & ? & ?). eexists. split; [|done].
    apply list_elem_of_fmap. eauto.
Qed.

(** An empty running result is taken for a result that was never set. *)
Lemma narrow_empty matches : narrow ∅ matches = matches.
Proof. unfold narrow. by case_decide. Qed.

Lemma elem_of_narrow results matches id :
  id ∈ narrow results matches → id ∈ results ∨ id ∈ matches.
Proof.
  unfold narrow. case_decide; [auto|].
  rewrite intersectResults_intersection. set_solver.
Qed.

Lemma elem_of_foldl_narrow {A} (f : A → Postings) (l : list A) results id :
  id ∈ foldl (λ results x, narrow results (f x)) results l →
  id ∈ results ∨ ∃ x, x ∈ l ∧ id ∈ f x.
Proof.
  revert results. induction l as [|x l IH]; intros results; simpl; [auto|].
  intros [[?|?]%elem_of_narrow|(y & ? & ?)]%IH; [by left|right..].
  - exists x. split; [apply elem_of_cons; auto|done].
  - exists y. split; [apply elem_of_cons; auto|done].
Qed.

Lemma searchByCategory_indexed index category value id :
  id ∈ searchByCategory index category value → ∃ key, id ∈ postings index key.
Proof. unfold searchByCategory. eauto. Qed.

Lemma keyResults_indexed index word id :
  id ∈ keyResults index word → ∃ key, id ∈ postings index key.
Proof. intros (category & _ & ?)%elem_of_keyResults. eauto. Qed.

Lemma searchByKeywords_from_indexed index keys currentResults isFirst id :
  id ∈ searchByKeywords_from index keys currentResults isFirst →
  id ∈ currentResults ∨ ∃ key, id ∈ postings index key.
Proof.
  revert currentResults isFirst.
  induction keys as [|key keys IH]; intros currentResults isFirst; simpl; [auto|].
  assert (∀ id', id' ∈ (if isFirst then keyResults index (toLower (cleanWord key))
                        else filter (λ id, id ∈ keyResults index (toLower (cleanWord key)))
                                    currentResults) →
                 id' ∈ currentResults ∨ ∃ key, id' ∈ postings index key) as Hstep.
  { intros id'. destruct isFirst.
    - intros ?%keyResults_indexed. auto.
    - intros [_ ?]%elem_of_filter. auto. }
  case_decide; [by apply Hstep|].
  intros [?%Hstep|?]%IH; tauto.
Qed.

Lemma searchByKeywords_indexed index keys id :
  id ∈ searchByKeywords index keys → ∃ key, id ∈ postings index key.
Proof.
  unfold searchByKeywords.
  intros [?|?]%searchByKeywords_from_indexed; [set_solver|done].
Qed.

Lemma genreResults_indexed index genreField id :
  id ∈ genreResults index genreField → ∃ key, id ∈ postings index key.
Proof.
  unfold genreResults.
  intros [?|(word & _ & ?)]%elem_of_foldl_narrow; [set_solver|].
  by eapply searchByCategory_indexed.
Qed.

Lemma postSearch_indexed index (params : gmap string string) id :
  id ∈ postSearch index params → ∃ key, id ∈ postings index key.
Proof.
  unfold postSearch. cbv zeta.
  set (r1 := if str_empty (param params "genre") then ∅ else _).
  set (r2 := if str_empty (param params "year") then r1 else _).
  set (r3 := if str_empty (param params "language") then r2 else _).
  assert (H1 : id ∈ r1 → ∃ key, id ∈ postings index key).
  { subst r1. destruct (str_empty (param params "genre")); [by intros ?%elem_of_empty|].
    intros [?%elem_of_empty|?%genreResults_indexed]%elem_of_narrow; done. }
  assert (H2 : id ∈ r2 → ∃ key, id ∈ postings index key).
  { subst r2. destruct (str_empty (param params "year")); [done|].
    intros [?|?%searchByCategory_indexed]%elem_of_narrow; auto. }
  assert (H3 : id ∈ r3 → ∃ key, id ∈ postings index key).
  { subst r3. destruct (str_empty (param params "language")); [done|].
    intros [?|?%searchByCategory_indexed]%elem_of_narrow; auto. }
  destruct (str_empty (param params "keywords")); [done|].
  intros [?|(word & _ & ?%keyResults_indexed)]%elem_of_foldl_narrow; auto.
Qed.

End search_facts.

(** ** loadMovies *)

Section load_facts.

Lemma loadMovies_index chunks st st' out :
  loadMovies (Some chunks) st = (st', out) →
  invertedIndex st' = rebuildIndex (movies st') (invertedIndex st).
Proof. unfold loadMovies. by intros [= <- _]. Qed.

Lemma processChunk_valid lines :
  Forall (λ movie, valid movie = true) (threadMovies (processChunk lines)).
Proof.
  unfold processChunk.
  assert (∀ data, Forall (λ movie, valid movie = true) (threadMovies data) →
            Forall (λ movie, valid movie = true)
                   (threadMovies (foldl processLine data lines))) as Hinv.
  { induction lines as [|line lines IH]; intros data Hdata; simpl; [done|].
    apply IH. destruct line as [|t o l g y r p]; simpl; [done|].
    destruct (valid _) eqn:Hvalid; simpl; [|done].
    apply Forall_app. split; [done|]. by apply Forall_singleton. }
  by apply Hinv.
Qed.

(** Every item of a loaded catalog passed the validation. *)
Lemma loadMovies_valid chunks st st' out movie :
  loadMovies (Some chunks) st = (st', out) →
  movie ∈ movies st' → valid movie = true.
Proof.
  unfold loadMovies. intros [= <- _]; simpl.
  intros (l & Hin & Hl)%list_elem_of_In%in_concat.
  apply list_elem_of_In in Hl. apply list_elem_of_In in Hin.
  apply list_elem_of_fmap in Hin as (data & -> & Hdata).
  apply list_elem_of_fmap in Hdata as (lines & -> & _).
  by eapply (proj1 (Forall_forall _ _) (processChunk_valid lines)).
Qed.


(** C9. If the catalog file cannot be opened, the load stops with an error
    report and the whole state (item collection, derived fact sets and
    inverted index) is what it was before. *)
Theorem failed_open_keeps_state st :
  loadMovies None st = (st, CerrUnableToOpenFile).
Proof. reflexivity. Qed.

Lemma rebuildIndex_ids_in_range (movies : list Movie) (index : Index) key id :
  id ∈ postings (rebuildIndex movies index) key →
  0 ≤ id < Z.of_nat (length movies) ∧ is_Some (movies !! Z.to_nat id).
Proof.
  intros (j & movie & Hj & _ & ->)%elem_of_postings_rebuildIndex.
  rewrite Nat2Z.id. split; [|by eauto].
  apply lookup_lt_Some in Hj. lia.
Qed.

(** C10. After a completed load, every identifier in any posting list of
    the index is in the range [0 .. M-1], where [M] is the size of the
    loaded collection; so every identifier returned by the category lookup,
    the keyword search or the search of a POST request is a valid position
    in the collection, and the accesses [movies[id]] made to build the
    responses are in bounds. *)
Theorem loaded_ids_in_range chunks st st' out :
  loadMovies (Some chunks) st = (st', out) →
  (∀ key ids id, invertedIndex st' !! key = Some ids → id ∈ ids →
     0 ≤ id < Z.of_nat (length (movies st')))
  ∧ (∀ category value id,
       id ∈ searchByCategory (invertedIndex st') category value →
       0 ≤ id < Z.of_nat (length (movies st'))
       ∧ is_Some (movies st' !! Z.to_nat id))
  ∧ (∀ keys id,
       id ∈ searchByKeywords (invertedIndex st') keys →
       0 ≤ id < Z.of_nat (length (movies st'))
       ∧ is_Some (movies st' !! Z.to_nat id))
  ∧ (∀ params id,
       id ∈ postSearch (invertedIndex st') params →
       0 ≤ id < Z.of_nat (length (movies st'))
       ∧ is_Some (movies st' !! Z.to_nat id)).
Proof.
  intros Hload. rewrite (loadMovies_index _ _ _ _ Hload).
  split_and!.
  - intros key ids id Hkey Hid.
    eapply (rebuildIndex_ids_in_range _ _ key). apply elem_of_postings. eauto.
  - intros category value id [key Hkey]%searchByCategory_indexed.
    by eapply rebuildIndex_ids_in_range.
  - intros keys id [key Hkey]%searchByKeywords_indexed.
    by eapply rebuildIndex_ids_in_range.
  - intros params id [key Hkey]%postSearch_indexed.
    by eapply rebuildIndex_ids_in_range.
Qed.

End load_facts.

(** ** Keyword search: the short-circuit against the naive evaluation *)

Section keyword_search.
Implicit Types (index : Index) (keys : list string).

Lemma keyResults_keywordUnion index key :
  keyResults index (toLower (cleanWord key)) = Spec.keywordUnion index key.
Proof.
  rewrite keyResults_union.
  unfold Spec.keywordUnion, Spec.categoryNames, Spec.token, Spec.normalize.
  unfold categories. cbn [fmap list_fmap]. done.
Qed.

Lemma foldl_intersection_empty (sets : list Postings) : foldl (∩) ∅ sets = ∅.
Proof.
  induction sets as [|X sets IH]; simpl; [done|].
  by replace (∅ ∩ X) with (∅ : Postings) by set_solver.
Qed.

(** After the first keyword, the loop computes the intersection of the
    running result with the unions of the remaining keywords, [break] or
    not. *)
Lemma searchByKeywords_from_later index keys (currentResults : Postings) :
  searchByKeywords_from index keys currentResults false
  = foldl (∩) currentResults (Spec.keywordUnion index <$> keys).
Proof.
  revert currentResults.
  induction keys as [|key keys IH]; intros currentResults; simpl; [done|].
  rewrite keyResults_keywordUnion.
  replace (filter (λ id, id ∈ Spec.keywordUnion index key) currentResults)
    with (currentResults ∩ Spec.keywordUnion index key) by set_solver.
  case_decide as Hempty; [|apply IH].
  by rewrite Hempty, foldl_intersection_empty.
Qed.

Lemma searchByKeywords_naive index keys :
  searchByKeywords index keys = Spec.naiveKeywordSearch index keys.
Proof.
  unfold searchByKeywords, Spec.naiveKeywordSearch.
  destruct keys as [|key keys]; simpl; [done|].
  rewrite keyResults_keywordUnion.
  case_decide as Hempty; [|apply searchByKeywords_from_later].
  by rewrite Hempty, foldl_intersection_empty.
Qed.

(** C7. For every keyword sequence and every index, the keyword search with
    its short-circuit returns the same set as the naive evaluation, which
    intersects the six-category unions of all the keywords; in particular,
    once the running intersection is empty after some keyword, the result
    stays empty whatever keywords follow. *)
Theorem short_circuit_is_unobservable index keys :
  searchByKeywords index keys = Spec.naiveKeywordSearch index keys
  ∧ ∀ more, keys ≠ [] → searchByKeywords index keys = ∅ →
      searchByKeywords index (keys ++ more) = ∅.
Proof.
  split; [apply searchByKeywords_naive|].
  intros more Hne. rewrite !searchByKeywords_naive.
  unfold Spec.naiveKeywordSearch. destruct keys as [|key keys]; [done|].
  rewrite <-app_comm_cons, !fmap_cons, fmap_app. unfold Spec.intersection.
  rewrite foldl_app. intros ->. apply foldl_intersection_empty.
Qed.

End keyword_search.

(** ** Queries without criteria *)

Section empty_query.

Lemma listing_empty : listing ∅ = NoMovies.
Proof. unfold listing. by case_decide. Qed.

Lemma postSearch_no_fields index (params : gmap string string) :
  param params "genre" = EmptyString → param params "year" = EmptyString →
  param params "language" = EmptyString → param params "keywords" = EmptyString →
  postSearch index params = ∅.
Proof. unfold postSearch. by intros -> -> -> ->. Qed.

Lemma handleClient_does_postBlock request st event :
  event ∈ postBlock request st → event ∈ handleClient (Some request) st.
Proof.
  intros Hin. unfold handleClient.
  assert (event ∈ getBlock request st ++ postBlock request st) as Hdone
    by (apply elem_of_app; auto).
  destruct (terminated _); [done|].
  destruct (found_at_0 _ _); apply elem_of_app; auto.
Qed.

(** C6. A search with no filters and no keywords returns the empty result
    over any catalog: the keyword search over the empty keyword sequence
    yields the empty set, and a POST request none of whose fields [genre],
    [year], [language], [keywords] is non-empty is answered with the
    no-matches page. *)
Theorem empty_query_matches_nothing st :
  searchByKeywords (invertedIndex st) [] = ∅
  ∧ ∀ request body,
      found "POST" request = true → requestBody request = Some body →
      param (parseParams body) "genre" = EmptyString →
      param (parseParams body) "year" = EmptyString →
      param (parseParams body) "language" = EmptyString →
      param (parseParams body) "keywords" = EmptyString →
      postSearch (invertedIndex st) (parseParams body) = ∅
      ∧ Send (ResultsPage EmptyString EmptyString EmptyString EmptyString
                          (sortOf (parseParams body)) NoMovies)
        ∈ handleClient (Some request) st.
Proof.
  split; [done|]. intros request body Hpost Hbody Hg Hy Hl Hk.
  pose proof (postSearch_no_fields (invertedIndex st) _ Hg Hy Hl Hk) as Hnone.
  split; [done|]. apply handleClient_does_postBlock.
  unfold postBlock. rewrite Hpost, Hbody, Hg, Hy, Hl, Hk, Hnone, listing_empty.
  apply list_elem_of_singleton. done.
Qed.

End empty_query.

(** ** Searches that run during a reload *)

Section reload_steps.
Implicit Types (index old : Index) (movies : list Movie) (ops : list IndexOp).

Lemma addMovie_runOp id movie index :
  addMovie id movie index
  = foldl runOp index ((λ key, OpAddToIndex key id) <$> addMovie_keys movie).
Proof. unfold addMovie. by rewrite foldl_fmap. Qed.

Lemma addMovies_from_runOp i movies index :
  addMovies_from i movies index = foldl runOp index (addMovies_ops i movies).
Proof.
  revert i index. induction movies as [|movie movies IH]; intros i index; simpl; [done|].
  by rewrite foldl_app, <-addMovie_runOp, IH.
Qed.

(** The rebuild is the run of its critical sections, in order. *)
Lemma rebuildIndex_runOp movies index :
  rebuildIndex movies index = foldl runOp index (rebuildOps movies).
Proof. unfold rebuildIndex, rebuildOps. simpl. apply addMovies_from_runOp. Qed.

Lemma addMovies_ops_no_clear i movies :
  Forall (λ op, op ≠ OpClear) (addMovies_ops i movies).
Proof.
  revert i. induction movies as [|movie movies IH]; intros i; simpl; [done|].
  apply Forall_app. split; [|done].
  apply Forall_fmap, Forall_forall. by intros.
Qed.

Lemma elem_of_postings_runOp_adds ops index key id :
  Forall (λ op, op ≠ OpClear) ops →
  id ∈ postings (foldl runOp index ops) key ↔
  id ∈ postings index key ∨ OpAddToIndex key id ∈ ops.
Proof.
  intros Hops. revert index.
  induction Hops as [|op ops Hop _ IH]; intros index; simpl.
  - rewrite elem_of_nil. tauto.
  - rewrite IH, elem_of_cons. destruct op as [|key' id']; [done|]; simpl.
    rewrite elem_of_postings_addToIndex. naive_solver.
Qed.

Lemma indexDuringRebuild_0 movies old : indexDuringRebuild 0 movies old = old.
Proof. done. Qed.

Lemma indexDuringRebuild_S n movies old :
  indexDuringRebuild (S n) movies old = foldl runOp ∅ (take n (addMovies_ops 0 movies)).
Proof. done. Qed.

Lemma indexDuringRebuild_end n movies old :
  (length (rebuildOps movies) ≤ n)%nat →
  indexDuringRebuild n movies old = rebuildIndex movies old.
Proof.
  intros Hn. unfold indexDuringRebuild.
  by rewrite take_ge, rebuildIndex_runOp.
Qed.

(** C2, as the program has it. The reload does not build a new index
    aside: it clears the index the searches read and fills it again, key
    by key.  A search that takes the mutex after [n] of these steps sees
    the old index when [n = 0]; from the [clear] on it sees, under every
    token, a subset of the new posting list (so no old posting mixed with
    new ones, but possibly an empty or a partly filled list); and once all
    steps are done it sees the new index. *)
Theorem search_during_rebuild n movies old :
  ((n = 0%nat ∧ indexDuringRebuild n movies old = old)
   ∨ ((0 < n)%nat ∧ ∀ key,
        postings (indexDuringRebuild n movies old) key
        ⊆ postings (rebuildIndex movies old) key))
  ∧ indexDuringRebuild (length (rebuildOps movies)) movies old
    = rebuildIndex movies old.
Proof.
  split; [|by apply indexDuringRebuild_end].
  destruct n as [|n]; [by left|right]. split; [lia|]. intros key id.
  rewrite indexDuringRebuild_S, rebuildIndex_runOp. unfold rebuildOps; simpl.
  rewrite !elem_of_postings_runOp_adds.
  - intros [?|?%(subseteq_take n)]; auto.
  - apply addMovies_ops_no_clear.
  - apply Forall_take, addMovies_ops_no_clear.
Qed.

(** C2, as the specification words it, fails: while the sample catalog of
    two movies is reloaded from the same file, a search that comes after
    the first four steps (the [clear] and the three genre keys of the first
    movie) finds only the first movie under [genre_action], where both the
    old and the new index list the two movies. *)
Lemma search_during_rebuild_sees_partial_postings :
  postings (invertedIndex Sample.twoMovies) "genre_action" = {[ 0; 1 ]}
  ∧ postings (rebuildIndex (movies Sample.twoMovies) (invertedIndex Sample.twoMovies))
             "genre_action" = {[ 0; 1 ]}
  ∧ postings (indexDuringRebuild 4 (movies Sample.twoMovies)
                                 (invertedIndex Sample.twoMovies))
             "genre_action" = {[ 0 ]}
  ∧ ¬ Spec.oneGeneration
        (indexDuringRebuild 4 (movies Sample.twoMovies) (invertedIndex Sample.twoMovies))
        (invertedIndex Sample.twoMovies)
        (rebuildIndex (movies Sample.twoMovies) (invertedIndex Sample.twoMovies)).
Proof.
  split_and!; [by vm_compute..|].
  intros Hone. destruct (Hone "genre_action") as [Heq|Heq];
    apply (f_equal size) in Heq; vm_compute in Heq; discriminate Heq.
Qed.

End reload_steps.

(** ** The request handler on particular requests *)

Section requests.

Lemma handleClient_no_data st : handleClient None st = [CloseSocket].
Proof. done. Qed.

(** A request without [GET] and [POST] in it that does not start with
    [SEARCH] gets no response. *)
Lemma handleClient_unrecognized request st :
  found "GET" request = false → found "POST" request = false →
  found_at_0 "SEARCH" request = false →
  handleClient (Some request) st = [CloseSocket].
Proof.
  intros Hget Hpost Hsearch. unfold handleClient, getBlock, postBlock.
  by rewrite Hget, Hpost, Hsearch.
Qed.

Lemma found_at_0_prefix needle hay : found_at_0 needle hay = String.prefix needle hay.
Proof.
  unfold found_at_0, find. destruct hay as [|c hay]; simpl.
  - by destruct needle.
  - destruct needle as [|d needle]; [done|].
    destruct (Ascii.ascii_dec d c); [|by destruct (String.index 0 _ hay)].
    destruct (String.prefix needle hay); [done|].
    by destruct (String.index 0 _ hay).
Qed.

(** C1 at a failing request. The sample catalog has one movie, of year
    2010 and without the genre [comedy].  For the form fields
    [genre=comedy&year=2010] the genre filter matches nothing, so the
    intersection of the supplied filters is empty; the handler takes the
    empty running result for a result not yet started, replaces it by the
    matches of the year filter, and lists the movie. *)
Theorem post_search_restarts_from_empty_result :
  genreResults (invertedIndex Sample.oneMovie) "comedy" = ∅
  ∧ searchByCategory (invertedIndex Sample.oneMovie) "year" "2010" = {[ 0 ]}
  ∧ Spec.filteredSearch (invertedIndex Sample.oneMovie)
                        (parseParams "genre=comedy&year=2010") = ∅
  ∧ postSearch (invertedIndex Sample.oneMovie)
               (parseParams "genre=comedy&year=2010") = {[ 0 ]}
  ∧ handleClient (Some (Sample.post "genre=comedy&year=2010")) Sample.oneMovie
    = [Send (ResultsPage "comedy" "2010" EmptyString EmptyString Unsorted
                         (MoviesListed {[ 0 ]}));
       CloseSocket].
Proof. vm_compute. done. Qed.

(** C4 at a failing request. The request the client program sends for the
    keyword [GET] starts with [SEARCH], not with [GET]; the handler looks
    for [GET] anywhere in the request, so it sends the search form, and
    then the answer of the SEARCH command. *)
Theorem get_block_runs_on_search_request :
  String.prefix "GET" (Sample.clientRequest "GET") = false
  ∧ String.prefix "SEARCH" (Sample.clientRequest "GET") = true
  ∧ handleClient (Some (Sample.clientRequest "GET")) Sample.oneMovie
    = [Send (SearchForm {[ "Science Fiction"; "Action" ]} {[ 2010 ]} {[ "en" ]});
       Send (PlainText NoMovies);
       CloseSocket].
Proof. vm_compute. done. Qed.

End requests.

(** ** The theorems at the sample catalog *)

Section samples.

(** The movie rated 7.3 at position 1 is in bucket 7 and not in bucket 6. *)
Lemma rating_buckets_from_floor_witness :
  Z.of_nat 1 ∈ searchByCategory (rebuildIndex (movies Sample.twoMovies) ∅)
                                "rating" (to_string 7)
  ∧ Z.of_nat 1 ∉ searchByCategory (rebuildIndex (movies Sample.twoMovies) ∅)
                                  "rating" (to_string 6).
Proof.
  split.
  - eapply rating_buckets_from_floor; [reflexivity|reflexivity|].
    vm_compute. split; discriminate.
  - intros Hin.
    eapply rating_buckets_from_floor in Hin; [|reflexivity|reflexivity].
    vm_compute in Hin. destruct Hin as [Hle _]. by apply Hle.
Defined.


(** The identifier the keyword [robbers] returns is a position of the sample. *)
Lemma loaded_ids_in_range_witness :
  1 ∈ searchByKeywords (invertedIndex Sample.twoMovies) ["robbers"]
  ∧ 0 ≤ 1 < Z.of_nat (length (movies Sample.twoMovies))
  ∧ is_Some (movies Sample.twoMovies !! Z.to_nat 1).
Proof.
  assert (1 ∈ searchByKeywords (invertedIndex Sample.twoMovies) ["robbers"]) as Hin.
  { vm_compute. reflexivity. }
  split; [exact Hin|].
  exact (proj1 (proj2 (proj2 (loaded_ids_in_range [[Sample.inception]; [Sample.heat]]
                                Sample.noState Sample.twoMovies (CoutLoaded 2) eq_refl)))
               ["robbers"] 1 Hin).
Defined.

(** [SEARCH inception thief] finds the movie, with or without the
    short-circuit; [SEARCH inception 2099] is empty after its second
    keyword, and stays empty with a third. *)
Lemma short_circuit_is_unobservable_witness :
  searchByKeywords (invertedIndex Sample.oneMovie) ["inception"; "thief"] = {[ 0 ]}
  ∧ Spec.naiveKeywordSearch (invertedIndex Sample.oneMovie) ["inception"; "thief"]
    = {[ 0 ]}
  ∧ ["inception"; "2099"] ≠ []
  ∧ searchByKeywords (invertedIndex Sample.oneMovie) ["inception"; "2099"] = ∅
  ∧ searchByKeywords (invertedIndex Sample.oneMovie)
                     (["inception"; "2099"] ++ ["thief"]) = ∅.
Proof.
  assert (searchByKeywords (invertedIndex Sample.oneMovie) ["inception"; "thief"]
          = {[ 0 ]}) as Hfound by (vm_compute; reflexivity).
  assert (["inception"; "2099"] ≠ ([] : list string)) as Hne by discriminate.
  assert (searchByKeywords (invertedIndex Sample.oneMovie) ["inception"; "2099"] = ∅)
    as Hempty by (vm_compute; reflexivity).
  split_and!; [exact Hfound| |exact Hne|exact Hempty|].
  - exact (eq_trans
             (eq_sym (proj1 (short_circuit_is_unobservable
                               (invertedIndex Sample.oneMovie)
                               ["inception"; "thief"])))
             Hfound).
  - exact (proj2 (short_circuit_is_unobservable (invertedIndex Sample.oneMovie)
                    ["inception"; "2099"]) ["thief"] Hne Hempty).
Defined.

(** The form submitted with every field left empty. *)
Lemma empty_query_matches_nothing_witness :
  postSearch (invertedIndex Sample.oneMovie)
             (parseParams "genre=&year=&language=&keywords=") = ∅
  ∧ Send (ResultsPage EmptyString EmptyString EmptyString EmptyString
                      Unsorted NoMovies)
    ∈ handleClient (Some (Sample.post "genre=&year=&language=&keywords="))
                   Sample.oneMovie.
Proof.
  apply (proj2 (empty_query_matches_nothing Sample.oneMovie)
               (Sample.post "genre=&year=&language=&keywords=")
               "genre=&year=&language=&keywords="); reflexivity.
Defined.

End samples.

(** * Further properties of the program *)

(** ** Normalization of words *)

Section normalization.

Lemma strippable_tolower c : strippable (tolower c) = strippable c.
Proof. by destruct c as [[] [] [] [] [] [] [] []]. Qed.

Lemma str_empty_toLower s : str_empty (toLower s) = str_empty s.
Proof. by destruct s. Qed.

Lemma erase_leading_toLower s : erase_leading (toLower s) = toLower (erase_leading s).
Proof.
  induction s as [|c s IH]; simpl; [done|].
  rewrite strippable_tolower. by destruct (strippable c).
Qed.

Lemma erase_trailing_toLower s : erase_trailing (toLower s) = toLower (erase_trailing s).
Proof.
  induction s as [|c s IH]; simpl; [done|].
  rewrite IH, str_empty_toLower, strippable_tolower.
  by destruct (str_empty (erase_trailing s) && strippable c).
Qed.

Lemma cleanWord_toLower s : cleanWord (toLower s) = toLower (cleanWord s).
Proof.
  unfold cleanWord. rewrite erase_leading_toLower, str_empty_toLower.
  destruct (str_empty (erase_leading s)); [done|apply erase_trailing_toLower].
Qed.

(** What is left after [erase_leading] is empty or starts with a character
    that is kept. *)
Lemma erase_leading_head s c rest :
  erase_leading s = String c rest → strippable c = false.
Proof.
  induction s as [|d s IH]; simpl; [done|].
  destruct (strippable d) eqn:Hd; [done|]. by intros [= <- _].
Qed.

Lemma erase_leading_kept c rest :
  strippable c = false → erase_leading (String c rest) = String c rest.
Proof. simpl. by intros ->. Qed.

Lemma erase_trailing_head c rest :
  strippable c = false →
  ∃ rest', erase_trailing (String c rest) = String c rest'.
Proof. simpl. intros ->. rewrite andb_false_r. eauto. Qed.

Lemma erase_trailing_idemp s : erase_trailing (erase_trailing s) = erase_trailing s.
Proof.
  induction s as [|c s IH]; simpl; [done|].
  destruct (str_empty (erase_trailing s) && strippable c) eqn:Hc; simpl; [done|].
  by rewrite IH, Hc.
Qed.

Lemma cleanWord_head word c rest :
  cleanWord word = String c rest → strippable c = false.
Proof.
  unfold cleanWord. destruct (erase_leading word) as [|d s] eqn:Hlead; simpl; [done|].
  pose proof (erase_leading_head _ _ _ Hlead) as Hd.
  rewrite Hd, andb_false_r. by intros [= <- _].
Qed.

Lemma cleanWord_idemp word : cleanWord (cleanWord word) = cleanWord word.
Proof.
  destruct (cleanWord word) as [|c rest] eqn:Hclean; [done|].
  pose proof (cleanWord_head _ _ _ Hclean) as Hc.
  unfold cleanWord at 1. rewrite erase_leading_kept by done. simpl str_empty. cbv iota.
  rewrite <-Hclean. unfold cleanWord.
  destruct (erase_leading word) as [|d s] eqn:Hlead; [done|].
  simpl str_empty. cbv iota. apply erase_trailing_idemp.
Qed.

(** X1. Normalizing a word twice is the same as normalizing it once, and
    cleaning commutes with lowercasing: the keywords that [handleClient]
    has already cleaned and lowercased are unchanged by the second
    normalization in [searchByKeywords]. *)
Theorem normalization_idempotent word :
  cleanWord (toLower word) = toLower (cleanWord word)
  ∧ toLower (cleanWord (toLower (cleanWord word))) = toLower (cleanWord word).
Proof.
  split; [apply cleanWord_toLower|].
  by rewrite cleanWord_toLower, cleanWord_idemp, toLower_idemp.
Qed.

Lemma string_app_cons c (a b : string) : String c a +:+ b = String c (a +:+ b).
Proof. done. Qed.

Lemma string_app_nil_l (a : string) : EmptyString +:+ a = a.
Proof. done. Qed.

Lemma string_app_assoc (a b c : string) : (a +:+ b) +:+ c = a +:+ (b +:+ c).
Proof.
  induction a as [|x a IH]; [done|]. by rewrite !string_app_cons, IH.
Qed.

Lemma string_app_nil_r (a : string) : a +:+ EmptyString = a.
Proof. induction a as [|x a IH]; [done|]. by rewrite string_app_cons, IH. Qed.

Lemma erase_leading_split s :
  ∃ before, s = before +:+ erase_leading s ∧ string_forall strippable before = true.
Proof.
  induction s as [|c s (before & IH & Hbefore)]; simpl.
  - by exists EmptyString.
  - destruct (strippable c) eqn:Hc.
    + exists (String c before). split; [by rewrite string_app_cons, <-IH|].
      simpl. by rewrite Hc.
    + by exists EmptyString.
Qed.

Lemma erase_trailing_split s :
  ∃ after, s = erase_trailing s +:+ after ∧ string_forall strippable after = true.
Proof.
  induction s as [|c s (after & IH & Hafter)]; simpl.
  - by exists EmptyString.
  - destruct (erase_trailing s) as [|d t] eqn:Htail; simpl.
    + rewrite string_app_nil_l in IH. subst s.
      destruct (strippable c) eqn:Hc.
      * exists (String c after). split; [done|]. simpl. by rewrite Hc.
      * exists after. by rewrite string_app_cons.
    + exists after. by rewrite string_app_cons, <-IH.
Qed.

Lemma erase_trailing_last s init c :
  erase_trailing s = init +:+ String c EmptyString → strippable c = false.
Proof.
  revert init. induction s as [|d s IH]; intros init; simpl.
  - by destruct init.
  - destruct (erase_trailing s) as [|e t] eqn:Htail; simpl.
    + destruct (strippable d) eqn:Hd; [by destruct init|].
      destruct init as [|x [|y init]]; [by intros [= <-]|done..].
    + destruct init as [|x init]; [done|].
      rewrite string_app_cons. intros [= _ Heq]. by eapply IH.
Qed.

(** X2. [cleanWord] only removes characters of its punctuation set from the
    two ends of the word, and what it returns neither starts nor ends with
    such a character; punctuation inside the word is kept. *)
Theorem cleanWord_trims_both_ends word :
  (∃ before after,
      word = before +:+ cleanWord word +:+ after
      ∧ string_forall strippable before = true
      ∧ string_forall strippable after = true)
  ∧ (∀ c rest, cleanWord word = String c rest → strippable c = false)
  ∧ (∀ init c, cleanWord word = init +:+ String c EmptyString → strippable c = false).
Proof.
  split_and!.
  - destruct (erase_leading_split word) as (before & Hword & Hbefore).
    unfold cleanWord. destruct (str_empty (erase_leading word)) eqn:Hempty.
    + exists before, EmptyString. by rewrite string_app_nil_r.
    + destruct (erase_trailing_split (erase_leading word)) as (after & Hlead & Hafter).
      exists before, after. by rewrite <-Hlead.
  - apply cleanWord_head.
  - intros init c. unfold cleanWord.
    destruct (str_empty (erase_leading word)) eqn:Hempty.
    + destruct (erase_leading word); [|done]. by destruct init.
    + apply erase_trailing_last.
Qed.

End normalization.

(** ** What the keyword search and the category lookup find *)

Section search_meaning.
Implicit Types (index : Index) (id : Z) (keys : list string) (movie : Movie).

Lemma elem_of_foldl_intersection (X : Postings) (Xs : list Postings) id :
  id ∈ foldl (∩) X Xs ↔ id ∈ X ∧ ∀ Y, Y ∈ Xs → id ∈ Y.
Proof.
  revert X. induction Xs as [|Z Xs IH]; intros X; simpl.
  - split; [|tauto]. intros ?. split; [done|]. by intros Y ?%elem_of_nil.
  - rewrite IH, elem_of_intersection. setoid_rewrite elem_of_cons. naive_solver.
Qed.

Lemma elem_of_spec_intersection (sets : list Postings) id :
  id ∈ Spec.intersection sets ↔ sets ≠ [] ∧ ∀ X, X ∈ sets → id ∈ X.
Proof.
  destruct sets as [|X Xs]; simpl.
  - split; [by intros ?%elem_of_empty|by intros [? _]].
  - rewrite elem_of_foldl_intersection. setoid_rewrite elem_of_cons. naive_solver.
Qed.

Lemma elem_of_keywordUnion index key id :
  id ∈ Spec.keywordUnion index key ↔
  ∃ category, category ∈ categories
              ∧ id ∈ postings index (category +:+ toLower (cleanWord key)).
Proof. rewrite <-keyResults_keywordUnion. apply elem_of_keyResults. Qed.

Lemma elem_of_naiveKeywordSearch index keys id :
  id ∈ Spec.naiveKeywordSearch index keys ↔
  keys ≠ [] ∧ ∀ key, key ∈ keys →
    ∃ category, category ∈ categories
                ∧ id ∈ postings index (category +:+ toLower (cleanWord key)).
Proof.
  unfold Spec.naiveKeywordSearch. rewrite elem_of_spec_intersection. split.
  - intros [Hne Hall]. split; [by destruct keys|].
    intros key Hkey. apply elem_of_keywordUnion, Hall, list_elem_of_fmap. eauto.
  - intros [Hne Hall]. split; [by destruct keys|].
    intros X (key & -> & Hkey)%list_elem_of_fmap.
    by apply elem_of_keywordUnion, Hall.
Qed.


(** X4. The result of the keyword search depends only on which keywords are
    given, not on their order or repetition; and further keywords after a
    non-empty sequence can only remove identifiers from the result. *)
Theorem searchByKeywords_order_and_growth index keys :
  (∀ keys', (∀ key, key ∈ keys ↔ key ∈ keys') →
            searchByKeywords index keys = searchByKeywords index keys')
  ∧ (∀ more, keys ≠ [] →
             searchByKeywords index (keys ++ more) ⊆ searchByKeywords index keys).
Proof.
  split.
  - intros keys' Hsame. apply set_eq. intros id.
    rewrite !searchByKeywords_naive, !elem_of_naiveKeywordSearch.
    assert (keys ≠ [] ↔ keys' ≠ []) as Hne.
    { destruct keys as [|k ks], keys' as [|k' ks']; [done| | |done].
      - specialize (Hsame k'). rewrite elem_of_nil, elem_of_cons in Hsame. tauto.
      - specialize (Hsame k). rewrite elem_of_nil, elem_of_cons in Hsame. tauto. }
    rewrite Hne. by setoid_rewrite Hsame.
  - intros more Hne id.
    rewrite !searchByKeywords_naive, !elem_of_naiveKeywordSearch.
    intros [_ Hall]. split; [done|].
    intros key Hkey. apply Hall, elem_of_app. auto.
Qed.


Lemma year_key_in_addMovie_keys movie value :
  "year_" +:+ value ∈ addMovie_keys movie ↔ value = to_string (Movie.year movie).
Proof.
  rewrite elem_of_addMovie_keys. setoid_rewrite elem_of_processText. split.
  - intros [(? & ? & _ & _ & [=])|[Hkey|[[=]|[(? & _ & [=])
            |[(? & _ & _ & [=])|(? & _ & _ & [=])]]]]].
    by apply (app_string_inj "year_").
  - intros ->. auto.
Qed.

Lemma language_key_in_addMovie_keys movie value :
  "language_" +:+ value ∈ addMovie_keys movie ↔ value = toLower (Movie.language movie).
Proof.
  rewrite elem_of_addMovie_keys. setoid_rewrite elem_of_processText. split.
  - intros [(? & ? & _ & _ & [=])|[[=]|[Hkey|[(? & _ & [=])
            |[(? & _ & _ & [=])|(? & _ & _ & [=])]]]]].
    by apply (app_string_inj "language_").
  - intros ->. auto.
Qed.

Lemma genre_key_in_addMovie_keys movie value :
  "genre_" +:+ value ∈ addMovie_keys movie ↔
  ∃ genre word, genre ∈ Movie.genres movie ∧ word ∈ words genre
                ∧ value = toLower word.
Proof.
  rewrite elem_of_addMovie_keys. setoid_rewrite elem_of_processText. split.
  - intros [(genre & word & ? & ? & Hkey)|[[=]|[[=]|[(? & _ & [=])
            |[(? & _ & _ & [=])|(? & _ & _ & [=])]]]]].
    exists genre, word. split_and!; [done..|]. by apply (app_string_inj "genre_").
  - intros (genre & word & ? & ? & ->). left. eauto.
Qed.


End search_meaning.

(** ** The POST search against the intersection of the filters *)

Section post_search.
Implicit Types (index : Index) (r s m : Postings) (sets : list Postings).

Lemma foldl_intersection_subseteq (X : Postings) (Xs : list Postings) :
  foldl (∩) X Xs ⊆ X.
Proof. intros id. rewrite elem_of_foldl_intersection. tauto. Qed.

Lemma narrow_nonempty r m : r ≠ ∅ → narrow r m = r ∩ m.
Proof.
  intros Hr. unfold narrow. case_decide; [done|].
  apply intersectResults_intersection.
Qed.

Lemma intersection_subseteq_narrow r s m : s ⊆ r → s ∩ m ⊆ narrow r m.
Proof.
  intros Hsub. unfold narrow. case_decide; [set_solver|].
  rewrite intersectResults_intersection. set_solver.
Qed.

Lemma foldl_narrow_contains {A} (f : A → Postings) (l : list A) r s :
  s ⊆ r → foldl (∩) s (f <$> l) ⊆ foldl (λ r x, narrow r (f x)) r l.
Proof.
  revert r s. induction l as [|x l IH]; intros r s Hsub; simpl; [done|].
  by apply IH, intersection_subseteq_narrow.
Qed.

Lemma foldl_narrow_exact {A} (f : A → Postings) (l : list A) r :
  foldl (∩) r (f <$> l) ≠ ∅ →
  foldl (λ r x, narrow r (f x)) r l = foldl (∩) r (f <$> l).
Proof.
  revert r. induction l as [|x l IH]; intros r Hne; simpl; [done|].
  simpl in Hne.
  assert (r ≠ ∅) as Hr.
  { intros ->. apply Hne. replace (∅ ∩ f x) with (∅ : Postings) by set_solver.
    apply foldl_intersection_empty. }
  rewrite narrow_nonempty by done. by apply IH.
Qed.

Lemma spec_intersection_snoc sets m :
  sets ≠ [] → Spec.intersection (sets ++ [m]) = Spec.intersection sets ∩ m.
Proof.
  destruct sets as [|X Xs]; [done|]. intros _. simpl. by rewrite foldl_app.
Qed.

Lemma spec_intersection_app_fold sets (Xs : list Postings) :
  sets ≠ [] → Xs ≠ [] →
  Spec.intersection (sets ++ [Spec.intersection Xs])
  = foldl (∩) (Spec.intersection sets) Xs.
Proof.
  intros Hsets HXs. rewrite spec_intersection_snoc by done.
  destruct Xs as [|X Xs]; [done|]. simpl. apply set_eq. intros id.
  rewrite elem_of_intersection, !elem_of_foldl_intersection, elem_of_intersection.
  tauto.
Qed.

(** One filter block: [results] narrowed by the matches [m]. *)
Lemma agrees_narrow r sets m : agrees r sets → agrees (narrow r m) (sets ++ [m]).
Proof.
  intros [[-> ->]|(Hne & Hsub & Hexact)]; right.
  - rewrite narrow_empty. by split; [|split].
  - rewrite spec_intersection_snoc by done. split_and!.
    + by destruct sets.
    + by apply intersection_subseteq_narrow.
    + intros Hm.
      assert (Spec.intersection sets ≠ ∅) as Hsets by set_solver.
      rewrite (Hexact Hsets). by apply narrow_nonempty.
Qed.

(** A loop of narrowing steps from nothing, against the intersection of
    its matches. *)
Lemma agrees_foldl_narrow_first {A} (f : A → Postings) (l : list A) :
  Spec.intersection (f <$> l) ⊆ foldl (λ r x, narrow r (f x)) ∅ l
  ∧ (Spec.intersection (f <$> l) ≠ ∅ →
     foldl (λ r x, narrow r (f x)) ∅ l = Spec.intersection (f <$> l)).
Proof.
  destruct l as [|x l]; simpl; [done|]. rewrite narrow_empty.
  split; [by apply foldl_narrow_contains|apply foldl_narrow_exact].
Qed.

(** A filter without matches: the intersection is empty, whatever [r]. *)
Lemma agrees_empty_filter r sets : agrees r (sets ++ [∅]).
Proof.
  right. assert (Spec.intersection (sets ++ [∅]) = ∅) as ->.
  { destruct sets as [|X Xs]; [done|].
    rewrite spec_intersection_snoc by done. set_solver. }
  split_and!; [by destruct sets|set_solver|done].
Qed.

(** The keyword block: [results] narrowed by the matches of every keyword
    in turn. *)
Lemma agrees_keywords {A} (f : A → Postings) (l : list A) r sets :
  agrees r sets →
  agrees (foldl (λ r x, narrow r (f x)) r l) (sets ++ [Spec.intersection (f <$> l)]).
Proof.
  intros Hagrees. destruct l as [|x l]; [apply agrees_empty_filter|].
  destruct Hagrees as [[-> ->]|(Hne & Hsub & Hexact)]; right.
  - destruct (agrees_foldl_narrow_first f (x :: l)) as [Hsub Hexact].
    by split; [|split].
  - rewrite spec_intersection_app_fold by done.
    change (f x :: (f <$> l)) with (f <$> x :: l).
    split_and!.
    + by destruct sets.
    + by apply foldl_narrow_contains.
    + intros Hall.
      assert (Spec.intersection sets ≠ ∅) as Hsets.
      { intros Hempty. apply Hall. rewrite Hempty. apply foldl_intersection_empty. }
      rewrite (Hexact Hsets). by apply foldl_narrow_exact.
Qed.

Lemma postKeywords_normalized field keyword :
  keyword ∈ postKeywords field → toLower (cleanWord keyword) = keyword.
Proof.
  unfold postKeywords.
  intros [_ (raw & -> & _)%list_elem_of_fmap]%list_elem_of_filter.
  by rewrite cleanWord_toLower, cleanWord_idemp, toLower_idemp.
Qed.

Lemma searchByKeywords_postKeywords index field :
  searchByKeywords index (postKeywords field)
  = Spec.intersection (keyResults index <$> postKeywords field).
Proof.
  rewrite searchByKeywords_naive. unfold Spec.naiveKeywordSearch. f_equal.
  apply list_fmap_ext. intros i keyword Hi.
  rewrite <-keyResults_keywordUnion. f_equal.
  apply (postKeywords_normalized field), list_elem_of_lookup. eauto.
Qed.

Lemma postSearch_agrees index (params : gmap string string) :
  agrees (postSearch index params) (Spec.suppliedFilters index params).
Proof.
  unfold postSearch, Spec.suppliedFilters. cbv zeta.
  rewrite searchByKeywords_postKeywords.
  set (G := Spec.intersection _).
  set (Y := searchByCategory index "year" _).
  set (L := searchByCategory index "language" _).
  set (kws := postKeywords _).
  assert (agrees (narrow ∅ (genreResults index (param params "genre"))) [G]) as HG.
  { right. rewrite narrow_empty. split; [done|]. apply agrees_foldl_narrow_first. }
  assert (agrees (∅ : Postings) (@nil Postings)) as H0 by (by left).
  destruct (str_empty (param params "genre"));
    [pose proof H0 as H1|pose proof HG as H1]; clear H0 HG;
    (destruct (str_empty (param params "year"));
       [pose proof H1 as H2|pose proof (agrees_narrow _ _ Y H1) as H2]); clear H1;
    (destruct (str_empty (param params "language"));
       [pose proof H2 as H3|pose proof (agrees_narrow _ _ L H2) as H3]); clear H2;
    (destruct (str_empty (param params "keywords")); [exact H3|]);
    exact (agrees_keywords (keyResults index) kws _ _ H3).
Qed.

(** X7. The search of a POST request never loses a movie that satisfies all
    the supplied filters: its result contains the intersection of their
    result sets.  Whenever that intersection is not empty, the result is
    exactly the intersection; the two differ only where the handler starts
    again from a running result that has become empty. *)
Theorem postSearch_contains_intersection index (params : gmap string string) :
  Spec.filteredSearch index params ⊆ postSearch index params
  ∧ (Spec.filteredSearch index params ≠ ∅ →
     postSearch index params = Spec.filteredSearch index params).
Proof.
  unfold Spec.filteredSearch.
  destruct (postSearch_agrees index params) as [[-> ->]|(_ & Hsub & Hexact)]; [|done].
  simpl. split; [done|]. by intros [].
Qed.

End post_search.

(** ** How a run of the handler ends *)

Section handler_runs.

Lemma prefix_app (a b : string) :
  String.prefix a b = true → ∃ rest, b = a +:+ rest.
Proof.
  revert b. induction a as [|c a IH]; intros b; [by exists b|].
  destruct b as [|d b]; simpl; [done|].
  destruct (Ascii.ascii_dec c d) as [->|]; [|done].
  intros (rest & ->)%IH. by exists rest.
Qed.

Lemma prefix_length (a b : string) :
  String.prefix a b = true → (String.length a ≤ String.length b)%nat.
Proof.
  intros (rest & ->)%prefix_app. clear.
  induction a as [|c a IH]; simpl; lia.
Qed.

Lemma find_nil needle :
  find needle EmptyString
  = match needle with EmptyString => Some 0%nat | String _ _ => None end.
Proof. done. Qed.

Lemma find_cons needle c hay :
  find needle (String c hay)
  = if String.prefix needle (String c hay) then Some 0%nat
    else match find needle hay with Some n => Some (S n) | None => None end.
Proof. done. Qed.

(** An occurrence found by [find] lies inside the string. *)
Lemma find_bound needle hay p :
  find needle hay = Some p → (p + String.length needle ≤ String.length hay)%nat.
Proof.
  revert p. induction hay as [|c hay IH]; intros p.
  - rewrite find_nil. destruct needle; [|done]. intros [= <-]. simpl. lia.
  - rewrite find_cons.
    destruct (String.prefix needle (String c hay)) eqn:Hprefix.
    + intros [= <-]. apply prefix_length in Hprefix. simpl in *. lia.
    + destruct (find needle hay) as [q|]; [|done].
      intros [= <-]. specialize (IH q eq_refl). simpl. lia.
Qed.

Lemma substr_is_Some pos s :
  (pos ≤ String.length s)%nat → is_Some (substr pos s).
Proof.
  revert s. induction pos as [|pos IH]; intros s; simpl; [by eauto|].
  destruct s as [|c s]; simpl; [lia|]. intros ?. apply IH. lia.
Qed.

Lemma substr_app (a b : string) : substr (String.length a) (a +:+ b) = Some b.
Proof. induction a as [|c a IH]; simpl; [done|]. apply IH. Qed.

(** The position the body is taken from lies inside a request of four
    characters or more. *)
Lemma requestBody_in_bounds request :
  (4 ≤ String.length request)%nat → is_Some (requestBody request).
Proof.
  intros Hlen. unfold requestBody. apply substr_is_Some.
  destruct (find blankLine request) as [q|] eqn:Hblank; [|lia].
  apply find_bound in Hblank. simpl in Hblank. lia.
Qed.

Lemma found_length needle hay :
  found needle hay = true → (String.length needle ≤ String.length hay)%nat.
Proof.
  unfold found. destruct (find needle hay) as [p|] eqn:Hfind; [intros _|done].
  apply find_bound in Hfind. lia.
Qed.

(** X8. The body of a POST request is always found: when the request has
    no blank line, [find] returns [npos], the position [npos + 4] wraps to
    3, and a request with [POST] in it has at least four characters, so
    [substr] never throws in the POST block. *)
Theorem post_body_always_found request :
  found "POST" request = true → is_Some (requestBody request).
Proof.
  intros Hpost%found_length. simpl in Hpost. by apply requestBody_in_bounds.
Qed.

Lemma postBlock_not_Terminate request st : Terminate ∉ postBlock request st.
Proof.
  unfold postBlock. destruct (found "POST" request) eqn:Hpost.
  - apply found_length in Hpost. simpl in Hpost.
    destruct (requestBody_in_bounds request Hpost) as [body ->].
    by intros [=]%list_elem_of_singleton.
  - apply not_elem_of_nil.
Qed.

Lemma getBlock_not_Terminate request st : Terminate ∉ getBlock request st.
Proof.
  unfold getBlock. destruct (found "GET" request).
  - by intros [=]%list_elem_of_singleton.
  - apply not_elem_of_nil.
Qed.

Lemma terminated_false events : Terminate ∉ events → terminated events = false.
Proof.
  unfold terminated. intros Hnot.
  destruct (last events) as [[]|] eqn:Hlast; [done..| |done].
  exfalso. apply Hnot, list_elem_of_lookup.
  exists (pred (length events)). by rewrite <-last_lookup.
Qed.

Lemma found_at_0_SEARCH request :
  found_at_0 "SEARCH" request = true ↔ ∃ rest, request = "SEARCH" +:+ rest.
Proof.
  rewrite found_at_0_prefix. split; [apply prefix_app|].
  intros (rest & ->). by destruct rest.
Qed.

(** X9. Every run of the handler ends by closing the socket, with one
    exception: on the request that consists of the six characters [SEARCH]
    alone, [request.substr(7)] throws and nothing is sent or closed.  No
    other request makes the handler throw. *)
Theorem handler_closes_unless_bare_SEARCH (received : option string) st :
  (received = Some "SEARCH" ∧ handleClient received st = [Terminate])
  ∨ (received ≠ Some "SEARCH"
     ∧ last (handleClient received st) = Some CloseSocket
     ∧ Terminate ∉ handleClient received st).
Proof.
  destruct received as [request|]; [|right; split_and!; [done..|]].
  2:{ by intros [=]%list_elem_of_singleton. }
  destruct (decide (request = "SEARCH")) as [->|Hne]; [by left|right].
  split; [congruence|]. unfold handleClient.
  pose proof (getBlock_not_Terminate request st) as Hget.
  pose proof (postBlock_not_Terminate request st) as Hpost.
  assert (Terminate ∉ getBlock request st ++ postBlock request st) as Hdone.
  { rewrite elem_of_app. tauto. }
  rewrite (terminated_false _ Hdone).
  destruct (found_at_0 "SEARCH" request) eqn:Hsearch.
  - apply found_at_0_SEARCH in Hsearch as (rest & ->).
    destruct rest as [|c rest]; [done|].
    unfold searchBlock. simpl substr. split.
    + by rewrite last_app_cons.
    + rewrite elem_of_app, !elem_of_cons, elem_of_nil. intros [?|[[=]|[[=]|[]]]]. done.
  - split; [by rewrite last_snoc|].
    rewrite elem_of_app, list_elem_of_singleton. intros [?|[=]]. done.
Qed.

Lemma extract_words_trailing_space (s cur : string) c :
  isspace c = true →
  extract_words (s +:+ String c EmptyString) cur = extract_words s cur.
Proof.
  intros Hc. revert cur. induction s as [|d s IH]; intros cur.
  - simpl. rewrite Hc. by destruct (str_empty cur).
  - rewrite string_app_cons. simpl. rewrite !IH. done.
Qed.

End handler_runs.

(** ** The catalog and the derived sets after a load *)

Section loaded_catalog.

(** What holds of the slots of a worker, line after line. *)
Lemma processLine_facts (data : ThreadData) (line : Line) (seen : list Line) :
  (threadYears data = list_to_set (Movie.year <$> threadMovies data)
   ∧ threadLanguages data = list_to_set (Movie.language <$> threadMovies data)
   ∧ threadRatings data = list_to_set (Movie.rating <$> threadMovies data)
   ∧ threadGenres data = list_to_set (seen ≫= lineGenres)
   ∧ (∀ (i : nat) movie, threadMovies data !! i = Some movie →
        Movie.id movie = Z.of_nat i)
   ∧ (∀ movie genre, movie ∈ threadMovies data → genre ∈ Movie.genres movie →
        genre ∈ threadGenres data)) →
  let data' := processLine data line in
  threadYears data' = list_to_set (Movie.year <$> threadMovies data')
  ∧ threadLanguages data' = list_to_set (Movie.language <$> threadMovies data')
  ∧ threadRatings data' = list_to_set (Movie.rating <$> threadMovies data')
  ∧ threadGenres data' = list_to_set ((seen ++ [line]) ≫= lineGenres)
  ∧ (∀ (i : nat) movie, threadMovies data' !! i = Some movie →
       Movie.id movie = Z.of_nat i)
  ∧ (∀ movie genre, movie ∈ threadMovies data' → genre ∈ Movie.genres movie →
       genre ∈ threadGenres data').
Proof.
  intros (Hyears & Hlanguages & Hratings & Hgenres & Hids & Hmovies). simpl.
  rewrite bind_app, list_to_set_app_L. simpl. rewrite app_nil_r.
  destruct line as [|title overview language genres year rating posterUrl]; simpl.
  { split_and!; [done..| |done|done]. rewrite Hgenres. set_solver. }
  destruct (valid _); simpl.
  - rewrite !fmap_app, !list_to_set_app_L. simpl.
    rewrite Hyears, Hlanguages, Hratings, Hgenres.
    split_and!; [set_solver..|done| |].
    + intros i movie [[? ?]|[Hi Hm]]%lookup_snoc_Some; [by apply Hids|by subst].
    + intros movie genre [?| ->%list_elem_of_singleton]%elem_of_app Hgenre.
      * apply elem_of_union. left. rewrite <-Hgenres. by eapply Hmovies.
      * apply elem_of_union. right. by apply elem_of_list_to_set.
  - rewrite Hgenres. split_and!; [done..|].
    intros movie genre Hmovie Hgenre.
    apply elem_of_union. left. rewrite <-Hgenres. by eapply Hmovies.
Qed.

Lemma processChunk_facts (lines : list Line) :
  let data := processChunk lines in
  threadYears data = list_to_set (Movie.year <$> threadMovies data)
  ∧ threadLanguages data = list_to_set (Movie.language <$> threadMovies data)
  ∧ threadRatings data = list_to_set (Movie.rating <$> threadMovies data)
  ∧ threadGenres data = list_to_set (lines ≫= lineGenres)
  ∧ (∀ (i : nat) movie, threadMovies data !! i = Some movie →
       Movie.id movie = Z.of_nat i)
  ∧ (∀ movie genre, movie ∈ threadMovies data → genre ∈ Movie.genres movie →
       genre ∈ threadGenres data).
Proof.
  unfold processChunk.
  induction lines as [|line lines IH] using rev_ind.
  - simpl. split_and!; [done..| |]; [by intros [|?] ?|by intros ? ? ?%elem_of_nil].
  - rewrite foldl_snoc. by apply processLine_facts.
Qed.

Lemma derived_set_of_threads `{Countable B} (slot : ThreadData → gset B)
    (f : Movie → B) (chunks : list (list Line)) :
  (∀ lines, slot (processChunk lines)
            = list_to_set (f <$> threadMovies (processChunk lines))) →
  ⋃ (slot <$> (processChunk <$> chunks))
  = list_to_set (f <$> concat (threadMovies <$> (processChunk <$> chunks))).
Proof.
  intros Hslot. induction chunks as [|lines chunks IH]; [done|].
  rewrite !fmap_cons, union_list_cons. simpl concat.
  by rewrite fmap_app, list_to_set_app_L, IH, Hslot.
Qed.

(** X11. After a load, the years, languages and ratings offered by the
    search form are exactly those of the movies of the catalog.  The genre
    set is the set of the genres of all converted rows, so it contains the
    genres of every movie of the catalog, and also the genres of rows that
    the validation rejected. *)
Theorem derived_sets_of_catalog (chunks : list (list Line)) st :
  years (loadMovies (Some chunks) st).1
  = list_to_set (Movie.year <$> movies (loadMovies (Some chunks) st).1)
  ∧ languages (loadMovies (Some chunks) st).1
    = list_to_set (Movie.language <$> movies (loadMovies (Some chunks) st).1)
  ∧ ratings (loadMovies (Some chunks) st).1
    = list_to_set (Movie.rating <$> movies (loadMovies (Some chunks) st).1)
  ∧ genres (loadMovies (Some chunks) st).1
    = list_to_set (concat chunks ≫= lineGenres)
  ∧ ∀ movie genre,
      movie ∈ movies (loadMovies (Some chunks) st).1 →
      genre ∈ Movie.genres movie →
      genre ∈ genres (loadMovies (Some chunks) st).1.
Proof.
  simpl. split_and!.
  - apply derived_set_of_threads. intros lines. apply processChunk_facts.
  - apply derived_set_of_threads. intros lines. apply processChunk_facts.
  - apply derived_set_of_threads. intros lines. apply processChunk_facts.
  - induction chunks as [|lines chunks IH]; [done|].
    rewrite !fmap_cons, union_list_cons. simpl concat.
    rewrite bind_app, list_to_set_app_L, IH.
    f_equal. apply processChunk_facts.
  - intros movie genre (l & Hl & Hmovie)%list_elem_of_In%in_concat Hgenre.
    apply list_elem_of_In in Hl, Hmovie.
    apply list_elem_of_fmap in Hl as (data & -> & Hdata).
    apply elem_of_union_list. exists (threadGenres data). split.
    + apply list_elem_of_fmap. eauto.
    + apply list_elem_of_fmap in Hdata as (lines & -> & _).
      by eapply processChunk_facts.
Qed.

(** X12. Every movie of a loaded catalog has a title, an overview and at
    least one genre, a year other than 0 and a rating above 0. *)
Theorem loaded_movies_are_complete chunks st st' out movie :
  loadMovies (Some chunks) st = (st', out) →
  movie ∈ movies st' →
  Movie.title movie ≠ EmptyString ∧ Movie.overview movie ≠ EmptyString
  ∧ Movie.genres movie ≠ [] ∧ Movie.year movie ≠ 0
  ∧ (0 < Movie.rating movie)%Qc.
Proof.
  intros Hload Hmovie.
  pose proof (loadMovies_valid _ _ _ _ _ Hload Hmovie) as Hvalid.
  unfold valid in Hvalid.
  apply andb_prop in Hvalid as [Hvalid Hrating].
  apply andb_prop in Hvalid as [Hvalid Hyear].
  apply andb_prop in Hvalid as [Hvalid Hgenres].
  apply andb_prop in Hvalid as [Htitle Hoverview].
  split_and!.
  - by destruct (Movie.title movie).
  - by destruct (Movie.overview movie).
  - by destruct (Movie.genres movie).
  - by destruct (Z.eqb_spec (Movie.year movie) 0).
  - by apply bool_decide_eq_true in Hrating.
Qed.

Lemma concat_lookup_id (lists : list (list Movie)) (i : nat) movie :
  (∀ l, l ∈ lists → ∀ (j : nat) m, l !! j = Some m → Movie.id m = Z.of_nat j) →
  concat lists !! i = Some movie →
  0 ≤ Movie.id movie ≤ Z.of_nat i.
Proof.
  revert i. induction lists as [|l lists IH]; intros i Hids; simpl; [done|].
  intros [Hl|[Hlen Hrest]]%lookup_app_Some.
  - rewrite (Hids l (list_elem_of_here _ _) i movie Hl). lia.
  - assert (0 ≤ Movie.id movie ≤ Z.of_nat (i - length l)); [|lia].
    apply IH; [|done]. intros l' Hl'. apply Hids. by apply list_elem_of_further.
Qed.


End loaded_catalog.

(** ** Splitting a line of the catalog file into fields *)

Section fields.

Lemma occurs_nil c : occurs c EmptyString = false.
Proof. done. Qed.

Lemma occurs_cons c d s : occurs c (String d s) = Ascii.eqb d c || occurs c s.
Proof. unfold occurs. simpl. by destruct (Ascii.eqb d c). Qed.

Lemma occurs_app c (a b : string) : occurs c (a +:+ b) = occurs c a || occurs c b.
Proof.
  induction a as [|d a IH]; [done|].
  by rewrite string_app_cons, !occurs_cons, IH, orb_assoc.
Qed.

Lemma occurs_push_back c s d :
  occurs c (push_back s d) = occurs c s || Ascii.eqb d c.
Proof. unfold push_back. by rewrite occurs_app, occurs_cons, occurs_nil, orb_false_r. Qed.

Lemma join_cons sep piece (rest : list string) :
  rest ≠ [] → join sep (piece :: rest) = piece +:+ sep +:+ join sep rest.
Proof. by destruct rest. Qed.

Lemma parseFields_from_not_nil line current inQuotes :
  parseFields_from line current inQuotes ≠ [].
Proof.
  revert current inQuotes. induction line as [|c line IH]; intros; simpl; [done|].
  destruct (Ascii.eqb c dquote); [apply IH|].
  destruct (Ascii.eqb c "," && negb inQuotes); [done|apply IH].
Qed.

Lemma parseFields_from_plain line current :
  occurs dquote line = false →
  join "," (parseFields_from line current false) = current +:+ line
  ∧ (occurs "," current = false →
     Forall (λ field, occurs "," field = false) (parseFields_from line current false)).
Proof.
  revert current. induction line as [|c line IH]; intros current; simpl.
  - intros _. rewrite string_app_nil_r. split; [done|]. by constructor.
  - rewrite occurs_cons. intros [Hc Hline]%orb_false_elim. rewrite Hc, andb_true_r.
    destruct (Ascii.eqb c ",") eqn:Hcomma.
    + apply Ascii.eqb_eq in Hcomma as ->.
      destruct (IH EmptyString Hline) as [Hjoin Hfields].
      rewrite join_cons by apply parseFields_from_not_nil. rewrite Hjoin.
      split; [done|]. intros Hcurrent. constructor; [done|]. by apply Hfields.
    + destruct (IH (push_back current c) Hline) as [Hjoin Hfields].
      split.
      * rewrite Hjoin. unfold push_back. by rewrite string_app_assoc.
      * intros Hcurrent. apply Hfields.
        by rewrite occurs_push_back, Hcurrent, Hcomma.
Qed.

(** X14. On a line without quote characters the fields are the stretches
    between the commas: no field contains a comma, and the fields joined
    with commas give the line back. *)
Theorem parseFields_splits_at_commas line :
  occurs dquote line = false →
  join "," (parseFields line) = line
  ∧ Forall (λ field, occurs "," field = false) (parseFields line).
Proof.
  intros Hline. unfold parseFields.
  destruct (parseFields_from_plain line EmptyString Hline) as [Hjoin Hfields].
  split; [done|]. by apply Hfields.
Qed.

Lemma parseFields_from_in_quotes (quoted rest current : string) :
  occurs dquote quoted = false →
  parseFields_from (quoted +:+ String dquote rest) current true
  = parseFields_from rest (current +:+ quoted) false.
Proof.
  revert current. induction quoted as [|c quoted IH]; intros current.
  - intros _. by rewrite string_app_nil_r.
  - rewrite occurs_cons. intros [Hc Hquoted]%orb_false_elim.
    rewrite string_app_cons. simpl. rewrite Hc, andb_false_r.
    rewrite IH by done. unfold push_back. by rewrite string_app_assoc.
Qed.

(** X15. A stretch between two quote characters goes into the field being
    read as it is, commas included, and the two quote characters are
    dropped: the line is split at a comma only outside quotes. *)
Theorem parseFields_keeps_quoted_commas (quoted rest current : string) :
  occurs dquote quoted = false →
  parseFields_from (String dquote (quoted +:+ String dquote rest)) current false
  = parseFields_from rest (current +:+ quoted) false.
Proof. intros Hquoted. simpl. by apply parseFields_from_in_quotes. Qed.

(** X16. The split always yields at least one field, and no field contains
    a quote character. *)
Theorem parseFields_drops_quotes line :
  parseFields line ≠ []
  ∧ Forall (λ field, occurs dquote field = false) (parseFields line).
Proof.
  split; [apply parseFields_from_not_nil|]. unfold parseFields.
  assert (∀ current inQuotes, occurs dquote current = false →
            Forall (λ field, occurs dquote field = false)
                   (parseFields_from line current inQuotes)) as Hgen; [|by apply Hgen].
  induction line as [|c line IH]; intros current inQuotes Hcurrent; simpl.
  - by constructor.
  - destruct (Ascii.eqb c dquote) eqn:Hquote; [by apply IH|].
    destruct (Ascii.eqb c "," && negb inQuotes).
    + constructor; [done|]. by apply IH.
    + apply IH. by rewrite occurs_push_back, Hcurrent, Hquote.
Qed.

End fields.

(** ** Converting the fields of a row *)

Section conversions.

Lemma digit_range c d : digit c = Some d → 0 ≤ d ≤ 9.
Proof.
  unfold digit.
  destruct (48 <=? N_of_ascii c)%N eqn:Hlow; [|done].
  destruct (N_of_ascii c <=? 57)%N eqn:Hhigh; [|done].
  simpl. intros [= <-].
  apply N.leb_le in Hlow, Hhigh. lia.
Qed.

Lemma read_digits_bound s acc n :
  read_digits s acc = Some n → 0 ≤ default 0 acc →
  0 ≤ n < (default 0 acc + 1) * 10 ^ Z.of_nat (String.length s).
Proof.
  revert acc. induction s as [|c s IH]; intros acc.
  - cbn [read_digits String.length]. intros -> Hacc.
    unfold default, from_option, id in *. lia.
  - cbn [read_digits String.length].
    rewrite Nat2Z.inj_succ, Z.pow_succ_r by lia.
    assert (0 < 10 ^ Z.of_nat (String.length s)) by (apply Z.pow_pos_nonneg; lia).
    destruct (digit c) as [d|] eqn:Hd.
    + apply digit_range in Hd. intros Hread Hacc.
      apply IH in Hread; unfold default, from_option, id in *; nia.
    + intros -> Hacc. unfold default, from_option, id in *. nia.
Qed.

Lemma trim_leading_length p s :
  (String.length (trim_leading p s) ≤ String.length s)%nat.
Proof. induction s as [|c s IH]; simpl; [done|]. destruct (p c); simpl; lia. Qed.

Lemma substr_to_length n s : (String.length (substr_to n s) ≤ n)%nat.
Proof.
  revert s. induction n as [|n IH]; intros [|c s]; simpl; try lia.
  specialize (IH s). lia.
Qed.

Lemma stoi_short s value :
  (String.length s ≤ 4)%nat → stoi s = Some value → -999 ≤ value ≤ 9999.
Proof.
  intros Hlen. unfold stoi.
  pose proof (trim_leading_length isspace s) as Htrim.
  assert (∀ (t : string) (negative : bool) (n : Z),
            (String.length t ≤ (if negative then 3 else 4))%nat →
            read_digits t None = Some n →
            -999 ≤ (if negative then - n else n) ≤ 9999) as Hdigits.
  { intros t negative n Ht Hread.
    apply read_digits_bound in Hread; [|done]. simpl in Hread.
    assert (10 ^ Z.of_nat (String.length t) ≤ 10 ^ (if negative then 3 else 4)).
    { apply Z.pow_le_mono_r; [lia|]. destruct negative; lia. }
    destruct negative; lia. }
  destruct (trim_leading isspace s) as [|c t] eqn:Ht; simpl in Htrim.
  { done. }
  destruct (Ascii.eqb c "-"); [|destruct (Ascii.eqb c "+")].
  - destruct (read_digits t None) as [n|] eqn:Hread; [|done].
    destruct (_ && _); [|done]. intros [= <-].
    apply (Hdigits t true n); [simpl; lia|done].
  - destruct (read_digits t None) as [n|] eqn:Hread; [|done].
    destruct (_ && _); [|done]. intros [= <-].
    pose proof (Hdigits t true n ltac:(simpl; lia) Hread) as Hneg. simpl in Hneg.
    apply read_digits_bound in Hread; [|done]. lia.
  - destruct (read_digits (String c t) None) as [n|] eqn:Hread; [|done].
    destruct (_ && _); [|done]. intros [= <-].
    apply (Hdigits (String c t) false n); [simpl; lia|done].
Qed.

(** X17. The year of a converted row comes from the first four characters
    of the date field, so it lies between -999 and 9999 (and is 0 for an
    empty field); the conversion never meets the limits of [int]. *)
Theorem parsed_year_range stof line title overview language genres year rating poster :
  parseLine stof line = Parsed title overview language genres year rating poster →
  -999 ≤ year ≤ 9999.
Proof.
  unfold parseLine. destruct (_ <? _)%nat; [done|].
  destruct (str_empty (fieldAt (parseFields line) 0)).
  - destruct (if str_empty _ then _ else _); [|done]. intros [= _ _ _ _ <- _ _]. lia.
  - destruct (stoi _) as [value|] eqn:Hstoi; [|done].
    destruct (if str_empty _ then _ else _); [|done]. intros [= _ _ _ _ <- _ _].
    eapply stoi_short; [|done]. apply substr_to_length.
Qed.

(** X18. A row with fewer than nine fields, with an empty date field or
    with an empty rating field never enters the catalog: the first is
    skipped, the other two get the year 0 or the rating 0 and fail the
    validation. *)
Theorem incomplete_rows_are_dropped stof (data : ThreadData) line :
  (length (parseFields line) < 9)%nat
  ∨ fieldAt (parseFields line) 0 = EmptyString
  ∨ fieldAt (parseFields line) 5 = EmptyString →
  threadMovies (processLine data (parseLine stof line)) = threadMovies data.
Proof.
  intros Hrow. unfold parseLine.
  destruct (length (parseFields line) <? 9)%nat eqn:Hlen; [done|].
  apply Nat.ltb_ge in Hlen.
  destruct Hrow as [?|[Hdate|Hrating]]; [lia| |].
  - rewrite Hdate. simpl.
    destruct (if str_empty _ then _ else _); [|done]. simpl.
    unfold valid. simpl. by rewrite !andb_false_r.
  - rewrite Hrating. simpl.
    destruct (if str_empty _ then _ else _); [|done]. simpl.
    unfold valid. simpl. by rewrite !andb_false_r.
Qed.

Lemma getline_pieces_no_delim delim s current :
  occurs delim current = false →
  Forall (λ piece, occurs delim piece = false) (getline_pieces delim s current).
Proof.
  revert current. induction s as [|c s IH]; intros current Hcurrent; simpl.
  - destruct (str_empty current); by repeat constructor.
  - destruct (Ascii.eqb c delim) eqn:Hc.
    + constructor; [done|]. by apply IH.
    + apply IH. by rewrite occurs_push_back, Hcurrent, Hc.
Qed.

Lemma trim_leading_head p s c rest :
  trim_leading p s = String c rest → p c = false.
Proof.
  induction s as [|d s IH]; simpl; [done|].
  destruct (p d) eqn:Hd; [done|]. by intros [= <- _].
Qed.

Lemma trim_leading_occurs p c s :
  occurs c s = false → occurs c (trim_leading p s) = false.
Proof.
  induction s as [|d s IH]; simpl; [done|].
  destruct (p d); [|done]. rewrite occurs_cons. intros [_ ?]%orb_false_elim. auto.
Qed.

Lemma trim_trailing_occurs p c s :
  occurs c s = false → occurs c (trim_trailing p s) = false.
Proof.
  induction s as [|d s IH]; simpl; [done|].
  rewrite occurs_cons. intros [Hd Hs]%orb_false_elim.
  destruct (str_empty (trim_trailing p s) && p d); [done|].
  by rewrite occurs_cons, Hd, IH.
Qed.

Lemma trim_trailing_head p c rest :
  p c = false → ∃ rest', trim_trailing p (String c rest) = String c rest'.
Proof. simpl. intros ->. rewrite andb_false_r. eauto. Qed.

Lemma trim_trailing_last p s init c :
  trim_trailing p s = init +:+ String c EmptyString → p c = false.
Proof.
  revert init. induction s as [|d s IH]; intros init; simpl.
  - by destruct init.
  - destruct (trim_trailing p s) as [|e t] eqn:Htail; simpl.
    + destruct (p d) eqn:Hd; [by destruct init|].
      destruct init as [|x [|y init]]; [by intros [= <-]|done..].
    + destruct init as [|x init]; [done|].
      rewrite string_app_cons. intros [= _ Heq]. by eapply IH.
Qed.

(** X19. Every genre kept for a row is non-empty, contains no comma, and
    neither starts nor ends with a space or a quote character. *)
Theorem parseGenres_are_trimmed field genre :
  genre ∈ parseGenres field →
  genre ≠ EmptyString
  ∧ occurs "," genre = false
  ∧ (∀ c rest, genre = String c rest → aroundGenre c = false)
  ∧ (∀ init c, genre = init +:+ String c EmptyString → aroundGenre c = false).
Proof.
  unfold parseGenres.
  intros [Hne (piece & -> & Hpiece)%list_elem_of_fmap]%list_elem_of_filter.
  split_and!.
  - by apply str_empty_false_iff.
  - apply trim_trailing_occurs, trim_leading_occurs.
    pose proof (getline_pieces_no_delim "," field EmptyString eq_refl) as Hall.
    by apply (proj1 (Forall_forall _ _) Hall).
  - intros c rest Hgenre.
    destruct (trim_leading aroundGenre piece) as [|d s] eqn:Hlead; [done|].
    pose proof (trim_leading_head _ _ _ _ Hlead) as Hd.
    destruct (trim_trailing_head aroundGenre d s Hd) as [rest' Htrail].
    rewrite Htrail in Hgenre. by injection Hgenre as <- _.
  - intros init c. apply trim_trailing_last.
Qed.

End conversions.

(** ** Reading the fields of a form body *)

Section form_body.

Lemma getline_pieces_plain delim (piece rest current : string) :
  occurs delim piece = false →
  getline_pieces delim (piece +:+ rest) current
  = getline_pieces delim rest (current +:+ piece).
Proof.
  revert current. induction piece as [|c piece IH]; intros current.
  - intros _. by rewrite string_app_nil_r.
  - rewrite occurs_cons. intros [Hc Hpiece]%orb_false_elim.
    rewrite string_app_cons. simpl. rewrite Hc, IH by done.
    unfold push_back. by rewrite string_app_assoc.
Qed.

(** Pieces without the delimiter, none of them empty, are read back from
    their concatenation with the delimiter between them. *)
Lemma getlines_join delim (pieces : list string) :
  Forall (λ piece, occurs delim piece = false ∧ piece ≠ EmptyString) pieces →
  getlines delim (join (String delim EmptyString) pieces) = pieces.
Proof.
  unfold getlines. induction 1 as [|piece pieces [Hplain Hne] _ IH]; [done|].
  destruct pieces as [|piece' pieces].
  - simpl join. rewrite <-(string_app_nil_r piece) at 1.
    rewrite getline_pieces_plain by done. simpl. by destruct piece.
  - rewrite join_cons by done. rewrite getline_pieces_plain by done.
    rewrite string_app_cons, string_app_nil_l. simpl.
    rewrite Ascii.eqb_refl. f_equal. apply IH.
Qed.

Lemma find_char_app c (key rest : string) :
  occurs c key = false →
  find (String c EmptyString) (key +:+ String c rest) = Some (String.length key).
Proof.
  induction key as [|d key IH].
  - intros _. rewrite string_app_nil_l, find_cons. simpl.
    destruct (Ascii.ascii_dec c c); [|done]. by destruct rest.
  - rewrite occurs_cons. intros [Hd Hkey]%orb_false_elim.
    rewrite string_app_cons, find_cons. simpl.
    destruct (Ascii.ascii_dec c d) as [->|_].
    + by rewrite Ascii.eqb_refl in Hd.
    + by rewrite IH.
Qed.

Lemma substr_to_app (a b : string) : substr_to (String.length a) (a +:+ b) = a.
Proof.
  induction a as [|c a IH]; simpl; [by destruct b|].
  by rewrite IH.
Qed.

Lemma substr_after_char c (key value : string) :
  substr (S (String.length key)) (key +:+ String c value) = Some value.
Proof. induction key as [|d key IH]; simpl; [done|apply IH]. Qed.

Lemma parseParams_formBody (fields : list (string * string)) :
  Forall (λ field, occurs "=" field.1 = false ∧ occurs "&" field.1 = false
                   ∧ occurs "&" field.2 = false) fields →
  parseParams (formBody fields)
  = foldl (λ params field, <[ field.1 := field.2 ]> params) ∅ fields.
Proof.
  intros Hfields. unfold parseParams, formBody.
  rewrite getlines_join.
  - rewrite foldl_fmap. generalize (∅ : gmap string string).
    induction Hfields as [|[key value] fields (Hkey & _ & _) _ IH];
      intros params; cbn [foldl fst snd]; [done|].
    change ("=" +:+ value) with (String "=" value).
    rewrite find_char_app by done. cbv beta iota.
    rewrite substr_to_app, substr_after_char. apply IH.
  - apply Forall_fmap. eapply Forall_impl; [done|].
    intros [key value] (_ & Hkey & Hvalue); simpl in *. split.
    + by rewrite !occurs_app, Hkey, Hvalue.
    + by destruct key.
Qed.

(** X20. The fields of a form body are read back: for fields with distinct
    keys, no [=] or [&] in a key and no [&] in a value, submitted as
    [key=value] joined with [&], [params[key]] is the value of every
    submitted field, and the empty string for every other key. *)
Theorem parseParams_reads_form_body (fields : list (string * string)) :
  NoDup fields.*1 →
  Forall (λ field, occurs "=" field.1 = false ∧ occurs "&" field.1 = false
                   ∧ occurs "&" field.2 = false) fields →
  (∀ key value, (key, value) ∈ fields →
     param (parseParams (formBody fields)) key = value)
  ∧ (∀ key, key ∉ fields.*1 →
       param (parseParams (formBody fields)) key = EmptyString).
Proof.
  intros Hnodup Hfields. rewrite parseParams_formBody by done. clear Hfields.
  unfold param. induction fields as [|[key' value'] fields IH] using rev_ind.
  - split; [by intros ? ? ?%elem_of_nil|done].
  - rewrite fmap_app in Hnodup. apply NoDup_app in Hnodup as (Hnodup & Hfresh & _).
    destruct (IH Hnodup) as [IHin IHout]. rewrite foldl_snoc. simpl. split.
    + intros key value [Hin|[= -> ->]%list_elem_of_singleton]%elem_of_app.
      * rewrite lookup_insert_ne; [by apply IHin|].
        intros <-. apply (Hfresh key'); [|simpl; apply list_elem_of_here].
        apply list_elem_of_fmap. by exists (key', value).
      * by rewrite lookup_insert_eq.
    + intros key Hkey. rewrite fmap_app, elem_of_app in Hkey. simpl in Hkey.
      rewrite lookup_insert_ne.
      * apply IHout. tauto.
      * intros <-. apply Hkey. right. apply list_elem_of_here.
Qed.

End form_body.

(** ** Words *)

Section word_split.

Lemma extract_words_plain (word rest current : string) :
  string_forall (λ c, negb (isspace c)) word = true →
  extract_words (word +:+ rest) current = extract_words rest (current +:+ word).
Proof.
  revert current. induction word as [|c word IH]; intros current.
  - intros _. by rewrite string_app_nil_r.
  - cbn [string_forall]. intros [Hc Hword]%andb_prop. apply negb_true_iff in Hc.
    rewrite string_app_cons. simpl. rewrite Hc, IH by done.
    unfold push_back. by rewrite string_app_assoc.
Qed.

Lemma string_forall_push_back p s c :
  string_forall p (push_back s c) = string_forall p s && p c.
Proof.
  unfold push_back. induction s as [|d s IH]; [simpl; by rewrite andb_true_r|].
  rewrite string_app_cons. cbn [string_forall]. by rewrite <-andb_assoc, <-IH.
Qed.

Lemma push_back_not_empty s c : str_empty (push_back s c) = false.
Proof. by destruct s. Qed.

Lemma extract_words_are_words (s current : string) :
  string_forall (λ c, negb (isspace c)) current = true →
  Forall (λ word, word ≠ EmptyString
                  ∧ string_forall (λ c, negb (isspace c)) word = true)
         (extract_words s current).
Proof.
  revert current. induction s as [|c s IH]; intros current Hcurrent; simpl.
  - destruct current; [by constructor|]. by repeat constructor.
  - destruct (isspace c) eqn:Hc.
    + destruct current; simpl; [by apply IH|].
      constructor; [done|]. by apply IH.
    + apply IH. by rewrite string_forall_push_back, Hcurrent, Hc.
Qed.

(** X21. The words read from a text are non-empty and free of white space,
    and words of this kind joined with single spaces are read back as they
    were: a genre of several words is indexed under each of them. *)
Theorem words_of_joined_words (s : string) (ws : list string) :
  Forall (λ word, word ≠ EmptyString
                  ∧ string_forall (λ c, negb (isspace c)) word = true) (words s)
  ∧ (Forall (λ word, word ≠ EmptyString
                     ∧ string_forall (λ c, negb (isspace c)) word = true) ws →
     words (join " " ws) = ws).
Proof.
  split; [by apply extract_words_are_words|].
  unfold words. induction 1 as [|word ws' [Hne Hplain] _ IH]; [done|].
  destruct ws' as [|word' ws'].
  - simpl join. rewrite <-(string_app_nil_r word) at 1.
    rewrite extract_words_plain by done. simpl. by destruct word.
  - rewrite join_cons by done. rewrite extract_words_plain by done.
    rewrite string_app_cons, string_app_nil_l. simpl.
    destruct word; [done|]. simpl. f_equal. apply IH.
Qed.

End word_split.

(** ** The queue of the thread pool *)

Section pool.
Import ThreadPool.

Lemma run_keeps_order (ops : list Op) (pool : t) (handled : list SOCKET) :
  (run ops pool handled).2 ++ tasks (run ops pool handled).1
  = handled ++ tasks pool ++ enqueued ops.
Proof.
  revert pool handled. induction ops as [|op ops IH]; intros pool handled.
  - simpl. by rewrite app_nil_r.
  - destruct op as [clientSocket| |]; simpl.
    + rewrite IH. simpl. by rewrite <-!app_assoc.
    + unfold workerTurn. destruct (tasks pool) as [|clientSocket rest] eqn:Htasks.
      * destruct (stop pool); rewrite IH, Htasks; done.
      * rewrite IH. simpl. by rewrite <-!app_assoc.
    + by rewrite IH.
Qed.

(** X22. In whatever order the accept loop, the workers and the destructor
    get the lock, the sockets handed to [handleClient] followed by the
    sockets still queued are the enqueued sockets in the order of their
    arrival: each connection is taken at most once, none is skipped, and
    they are taken first in, first out. *)
Theorem pool_is_fifo (ops : list Op) :
  (run ops init []).2 ++ tasks (run ops init []).1 = enqueued ops.
Proof. by rewrite run_keeps_order. Qed.

Lemma run_workers (pool : t) (handled : list SOCKET) :
  run (replicate (length (tasks pool)) OpWorker) pool handled
  = (mk [] (stop pool), handled ++ tasks pool).
Proof.
  destruct pool as [queue stopped]. simpl. revert handled.
  induction queue as [|clientSocket queue IH]; intros handled; simpl.
  - by rewrite app_nil_r.
  - rewrite IH. by rewrite <-app_assoc.
Qed.

(** X23. A worker leaves only when the pool is stopped and the queue is
    empty, and it waits only when the queue is empty and the pool is not
    stopped.  So the connections still queued when the destructor sets
    [stop] are not dropped: the next worker turns hand every one of them
    to [handleClient], in order, and only then do the workers leave. *)
Theorem pool_shutdown_drains_queue (pool : t) :
  ((workerTurn pool).1 = Exits ↔ stop pool = true ∧ tasks pool = [])
  ∧ ((workerTurn pool).1 = Waits ↔ stop pool = false ∧ tasks pool = [])
  ∧ run (OpShutdown :: replicate (length (tasks pool)) OpWorker) pool []
    = (mk [] true, tasks pool)
  ∧ workerTurn (mk [] true) = (Exits, mk [] true).
Proof.
  split_and!; [| | |done].
  - unfold workerTurn. destruct (tasks pool), (stop pool); simpl; naive_solver.
  - unfold workerTurn. destruct (tasks pool), (stop pool); simpl; naive_solver.
  - simpl. apply (run_workers (shutdown pool) []).
Qed.

End pool.

(** ** One movie in the index *)

Section one_movie.

(** X24. Indexing a movie under [id] adds [id] to the posting lists of the
    keys of the movie and changes nothing else: every other identifier is
    listed under a key after the call iff it was before, and no posting is
    removed. *)
Theorem addMovie_adds_its_id_only (index : Index) id movie key id' :
  id' ∈ postings (addMovie id movie index) key ↔
  id' ∈ postings index key ∨ (id' = id ∧ key ∈ addMovie_keys movie).
Proof. rewrite elem_of_postings_addMovie. tauto. Qed.

End one_movie.

(** ** The further properties at sample inputs *)

Section more_samples.

(** The word [(Hello!)] is cleaned to [Hello], which starts with a kept
    character. *)
Lemma cleanWord_trims_both_ends_witness :
  cleanWord "(Hello!)" = "Hello" ∧ strippable "H" = false.
Proof.
  split; [reflexivity|].
  exact (proj1 (proj2 (cleanWord_trims_both_ends "(Hello!)")) "H"%char "ello" eq_refl).
Defined.

(** Two orders of the same keywords, and a further keyword. *)
Lemma searchByKeywords_order_and_growth_witness :
  searchByKeywords (invertedIndex Sample.twoMovies) ["action"; "en"]
  = searchByKeywords (invertedIndex Sample.twoMovies) ["en"; "action"; "en"]
  ∧ ["action"; "en"] ≠ []
  ∧ searchByKeywords (invertedIndex Sample.twoMovies) (["action"; "en"] ++ ["crime"])
    ⊆ searchByKeywords (invertedIndex Sample.twoMovies) ["action"; "en"].
Proof.
  assert (["action"; "en"] ≠ ([] : list string)) as Hne by discriminate.
  split_and!; [|exact Hne|].
  - apply (proj1 (searchByKeywords_order_and_growth
                    (invertedIndex Sample.twoMovies) ["action"; "en"])).
    intros key. rewrite !elem_of_cons, !elem_of_nil. tauto.
  - exact (proj2 (searchByKeywords_order_and_growth
                    (invertedIndex Sample.twoMovies) ["action"; "en"])
                 ["crime"] Hne).
Defined.

(** A request for a genre and a year that the movie of the sample has. *)
Lemma postSearch_contains_intersection_witness :
  Spec.filteredSearch (invertedIndex Sample.oneMovie)
                      (parseParams "genre=action&year=2010") ≠ ∅
  ∧ postSearch (invertedIndex Sample.oneMovie)
               (parseParams "genre=action&year=2010")
    = Spec.filteredSearch (invertedIndex Sample.oneMovie)
                          (parseParams "genre=action&year=2010").
Proof.
  assert (Spec.filteredSearch (invertedIndex Sample.oneMovie)
                              (parseParams "genre=action&year=2010") ≠ ∅) as Hne.
  { intros Hempty. apply (f_equal size) in Hempty.
    vm_compute in Hempty. discriminate Hempty. }
  split; [exact Hne|].
  exact (proj2 (postSearch_contains_intersection (invertedIndex Sample.oneMovie)
                  (parseParams "genre=action&year=2010")) Hne).
Defined.

(** The body of a POST request of a browser. *)
Lemma post_body_always_found_witness :
  found "POST" (Sample.post "genre=action") = true
  ∧ is_Some (requestBody (Sample.post "genre=action")).
Proof.
  split; [reflexivity|].
  apply (post_body_always_found (Sample.post "genre=action")). reflexivity.
Defined.

(** The genre [Crime] of the second movie of the sample is in the genre set. *)
Lemma derived_sets_of_catalog_witness :
  "Crime" ∈ genres (loadMovies (Some [[Sample.inception]; [Sample.heat]])
                               Sample.noState).1.
Proof.
  refine (proj2 (proj2 (proj2 (proj2
            (derived_sets_of_catalog [[Sample.inception]; [Sample.heat]]
                                     Sample.noState)))) _ "Crime" _ _).
  - apply list_elem_of_lookup. exists 1%nat. reflexivity.
  - vm_compute. repeat constructor.
Defined.

(** The second movie of the sample passed the validation. *)
Lemma loaded_movies_are_complete_witness :
  ∃ movie, movie ∈ movies Sample.twoMovies
           ∧ Movie.title movie ≠ EmptyString ∧ Movie.overview movie ≠ EmptyString
           ∧ Movie.genres movie ≠ [] ∧ Movie.year movie ≠ 0
           ∧ (0 < Movie.rating movie)%Qc.
Proof.
  assert (∃ movie, movies Sample.twoMovies !! 1%nat = Some movie) as [movie Hmovie]
    by (eexists; reflexivity).
  assert (movie ∈ movies Sample.twoMovies) as Hin
    by (apply list_elem_of_lookup; eauto).
  exists movie. split; [exact Hin|].
  exact (loaded_movies_are_complete [[Sample.inception]; [Sample.heat]]
           Sample.noState Sample.twoMovies (CoutLoaded 2) movie eq_refl Hin).
Defined.


(** A row without quotes. *)
Lemma parseFields_splits_at_commas_witness :
  occurs dquote "2010-07-16,Inception,A thief" = false
  ∧ join "," (parseFields "2010-07-16,Inception,A thief")
    = "2010-07-16,Inception,A thief".
Proof.
  split; [reflexivity|].
  exact (proj1 (parseFields_splits_at_commas "2010-07-16,Inception,A thief" eq_refl)).
Defined.

(** A quoted genre list with a comma in it. *)
Lemma parseFields_keeps_quoted_commas_witness :
  occurs dquote "Action, Drama" = false
  ∧ parseFields (String dquote ("Action, Drama" +:+ String dquote ",poster.jpg"))
    = ["Action, Drama"; "poster.jpg"].
Proof.
  split; [reflexivity|].
  exact (eq_trans (parseFields_keeps_quoted_commas "Action, Drama" ",poster.jpg"
                     EmptyString eq_refl) eq_refl).
Defined.

(** A complete row, with a conversion of the rating field that yields 8.8. *)
Lemma parsed_year_range_witness :
  parseLine (λ _, Some (Q2Qc (88 # 10)))
            "2010-07-16,Inception,A thief,x,y,8.8,en,Action,poster.jpg"
  = Parsed "Inception" "A thief" "en" ["Action"] 2010 (Q2Qc (88 # 10)) "poster.jpg"
  ∧ -999 ≤ 2010 ≤ 9999.
Proof.
  assert (parseLine (λ _, Some (Q2Qc (88 # 10)))
            "2010-07-16,Inception,A thief,x,y,8.8,en,Action,poster.jpg"
          = Parsed "Inception" "A thief" "en" ["Action"] 2010 (Q2Qc (88 # 10))
                   "poster.jpg") as Hrow by reflexivity.
  split; [exact Hrow|].
  exact (parsed_year_range _ _ _ _ _ _ _ _ _ Hrow).
Defined.

(** A row of two fields. *)
Lemma incomplete_rows_are_dropped_witness :
  (length (parseFields "2010-07-16,Inception") < 9)%nat
  ∧ threadMovies (processLine (processChunk [])
                    (parseLine (λ _, None) "2010-07-16,Inception"))
    = threadMovies (processChunk []).
Proof.
  assert (length (parseFields "2010-07-16,Inception") < 9)%nat as Hshort
    by (vm_compute; lia).
  split; [exact Hshort|].
  exact (incomplete_rows_are_dropped (λ _, None) (processChunk [])
           "2010-07-16,Inception" (or_introl Hshort)).
Defined.

(** The first genre of a list with spaces around its entries. *)
Lemma parseGenres_are_trimmed_witness :
  "Action" ∈ parseGenres " Action, Drama "
  ∧ "Action" ≠ EmptyString ∧ occurs "," "Action" = false.
Proof.
  assert ("Action" ∈ parseGenres " Action, Drama ") as Hin
    by (vm_compute; repeat constructor).
  split; [exact Hin|].
  destruct (parseGenres_are_trimmed " Action, Drama " "Action" Hin)
    as (Hne & Hcomma & _).
  exact (conj Hne Hcomma).
Defined.

(** The body of a form with a genre and a year. *)
Lemma parseParams_reads_form_body_witness :
  formBody [("genre", "action"); ("year", "2010")] = "genre=action&year=2010"
  ∧ param (parseParams (formBody [("genre", "action"); ("year", "2010")])) "year"
    = "2010"
  ∧ param (parseParams (formBody [("genre", "action"); ("year", "2010")])) "keywords"
    = EmptyString.
Proof.
  split; [reflexivity|].
  destruct (parseParams_reads_form_body [("genre", "action"); ("year", "2010")])
    as [Hin Hout].
  - simpl. repeat (apply NoDup_cons; split); [| |apply NoDup_nil_2].
    + rewrite !elem_of_cons, elem_of_nil. intros [?|[]]. discriminate.
    + apply not_elem_of_nil.
  - repeat constructor.
  - split.
    + apply Hin. rewrite !elem_of_cons. auto.
    + apply Hout. simpl. rewrite !elem_of_cons, elem_of_nil.
      intros [?|[?|[]]]; discriminate.
Defined.

(** A genre of two words. *)
Lemma words_of_joined_words_witness :
  words (join " " ["Science"; "Fiction"]) = ["Science"; "Fiction"].
Proof.
  apply (proj2 (words_of_joined_words EmptyString ["Science"; "Fiction"])).
  repeat constructor; discriminate.
Defined.

End more_samples.

(** ** The form of the keys *)

Section key_form.
Implicit Types (movie : Movie) (key : string).

Lemma addMovie_keys_keyOf movie key : key ∈ addMovie_keys movie ↔ keyOf movie key.
Proof.
  rewrite elem_of_addMovie_keys. setoid_rewrite elem_of_processText. split.
  - intros [(genre & word & ? & ? & ->)|[->|[->|[(k & ? & ->)
           |[(word & ? & ? & ->)|(word & ? & ? & ->)]]]]].
    + exists "genre", (toLower word). split; [done|]. left. eauto 10.
    + exists "year", (to_string (Movie.year movie)). split; [done|]. auto 10.
    + exists "language", (toLower (Movie.language movie)). split; [done|]. auto 10.
    + exists "rating", (to_string k). split; [done|]. do 3 right. left. eauto 10.
    + exists "title", (toLower (cleanWord word)). split; [done|].
      do 4 right. left. eauto 10.
    + exists "overview", (toLower (cleanWord word)). split; [done|].
      do 5 right. eauto 10.
  - intros (category & value & -> &
            [[-> (genre & word & ? & ? & ->)]|[[-> ->]|[[-> ->]
            |[[-> (k & ? & ->)]|[[-> (word & ? & -> & ?)]|[-> (word & ? & -> & ?)]]]]]]).
    + left. eauto 10.
    + right; left. done.
    + do 2 right; left. done.
    + do 3 right; left. eauto 10.
    + do 4 right; left. eauto 10.
    + do 5 right. eauto 10.
Qed.

Lemma cleanWord_plain (s : string) :
  string_forall (λ c, negb (strippable c)) s = true → cleanWord s = s.
Proof.
  intros Hplain.
  assert (erase_trailing s = s) as Htrail.
  { induction s as [|c s IH]; [done|]. simpl in *.
    apply andb_prop in Hplain as [Hc Hs]. apply negb_true_iff in Hc.
    by rewrite Hc, andb_false_r, IH. }
  unfold cleanWord. destruct s as [|c s]; [done|]. simpl in Hplain.
  apply andb_prop in Hplain as [Hc _]. apply negb_true_iff in Hc.
  rewrite erase_leading_kept by done. done.
Qed.

Lemma string_of_uint_plain d :
  string_forall (λ c, negb (strippable c)) (NilEmpty.string_of_uint d) = true.
Proof. induction d; simpl; done. Qed.

(** A decimal numeral is left as it is by the normalization. *)
Lemma to_string_normalized z : Spec.normalized (to_string z).
Proof.
  unfold Spec.normalized, Spec.normalize.
  rewrite cleanWord_plain; [apply toLower_to_string|].
  unfold to_string. destruct (Z.to_int z) as [d|d]; simpl.
  - apply string_of_uint_plain.
  - apply string_of_uint_plain.
Qed.

Lemma cleaned_word_normalized word : Spec.normalized (toLower (cleanWord word)).
Proof.
  unfold Spec.normalized, Spec.normalize.
  by rewrite cleanWord_toLower, cleanWord_idemp, toLower_idemp.
Qed.




End key_form.

(** ** The request of the client program in the buffer of the handler *)

Section client_request.

Lemma substr_to_all n (s : string) :
  (String.length s ≤ n)%nat → substr_to n s = s.
Proof.
  revert n. induction s as [|c s IH]; intros [|n]; simpl; try done; [lia|].
  intros Hlen. rewrite IH; [done|lia].
Qed.

Lemma c_str_all (s : string) : occurs NUL s = false → c_str s = s.
Proof.
  induction s as [|c s IH]; simpl; [done|].
  rewrite occurs_cons. intros [-> Hs]%orb_false_elim. by rewrite IH.
Qed.

Lemma string_length_app (a b : string) :
  String.length (a +:+ b) = (String.length a + String.length b)%nat.
Proof. induction a as [|c a IH]; [done|]. rewrite string_app_cons. simpl. lia. Qed.

(** A request shorter than the buffer and without [NUL] is the text of the
    buffer. *)
Lemma bufferText_short (request : string) :
  (String.length request < BUFFER_SIZE)%nat → occurs NUL request = false →
  bufferText request = Some request.
Proof.
  intros Hlen Hnul. unfold bufferText.
  rewrite substr_to_all by lia.
  apply Nat.ltb_lt in Hlen as ->. simpl. by rewrite c_str_all.
Qed.

(** X10. For a line of fewer than 4088 characters without [NUL], the
    request the client program sends fits the buffer of the handler, so
    that, delivered by one [recv], it is the text of [request]; and it is
    answered by the SEARCH block: the handler sends the plain-text listing
    of the keyword search for the words of the line and closes the socket
    (after the form or the result page, if the line contains [GET] or
    [POST]); the line feed the client appends changes nothing. *)
Theorem client_request_is_answered (input : string) st :
  (String.length input < 4088)%nat → occurs NUL input = false →
  bufferText (Sample.clientRequest input) = Some (Sample.clientRequest input)
  ∧ handleClient_recv (Sample.clientRequest input) st
    = Some (getBlock (Sample.clientRequest input) st
            ++ postBlock (Sample.clientRequest input) st
            ++ [Send (PlainText (listing (searchByKeywords (invertedIndex st)
                                                           (searchKeywords input))));
                CloseSocket]).
Proof.
  intros Hlen Hnul.
  assert (bufferText (Sample.clientRequest input)
          = Some (Sample.clientRequest input)) as Hbuffer.
  { apply bufferText_short.
    - unfold Sample.clientRequest. rewrite !string_length_app. simpl.
      unfold BUFFER_SIZE. lia.
    - unfold Sample.clientRequest.
      by rewrite !occurs_app, Hnul. }
  split; [exact Hbuffer|].
  unfold handleClient_recv. rewrite Hbuffer.
  assert (str_empty (Sample.clientRequest input) = false) as -> by done.
  f_equal. unfold handleClient.
  assert (Terminate ∉ getBlock (Sample.clientRequest input) st
                      ++ postBlock (Sample.clientRequest input) st) as Hdone.
  { rewrite elem_of_app.
    intros [?%getBlock_not_Terminate|?%postBlock_not_Terminate]; done. }
  rewrite (terminated_false _ Hdone).
  assert (found_at_0 "SEARCH" (Sample.clientRequest input) = true) as ->.
  { apply found_at_0_SEARCH. by eexists. }
  rewrite <-app_assoc. do 2 f_equal.
  unfold searchBlock.
  assert (substr 7 (Sample.clientRequest input)
          = Some (input +:+ String (ascii_of_N 10) EmptyString)) as -> by done.
  unfold searchKeywords, words.
  by rewrite extract_words_trailing_space.
Qed.

(** The line [inception thief]. *)
Lemma client_request_is_answered_witness :
  (String.length "inception thief" < 4088)%nat
  ∧ occurs NUL "inception thief" = false
  ∧ bufferText (Sample.clientRequest "inception thief")
    = Some (Sample.clientRequest "inception thief")
  ∧ handleClient_recv (Sample.clientRequest "inception thief") Sample.oneMovie
    = Some (getBlock (Sample.clientRequest "inception thief") Sample.oneMovie
            ++ postBlock (Sample.clientRequest "inception thief") Sample.oneMovie
            ++ [Send (PlainText (listing (searchByKeywords
                                            (invertedIndex Sample.oneMovie)
                                            (searchKeywords "inception thief"))));
                CloseSocket]).
Proof.
  assert (String.length "inception thief" < 4088)%nat as Hlen
    by (apply Nat.ltb_lt; reflexivity).
  assert (occurs NUL "inception thief" = false) as Hnul by reflexivity.
  exact (conj Hlen (conj Hnul
           (client_request_is_answered "inception thief" Sample.oneMovie Hlen Hnul))).
Defined.

(** The bound is the size of the buffer: the request for a line of 4088
    characters fills the buffer and leaves no room for the terminator. *)
Lemma long_line_fills_buffer :
  String.length longLine = 4088%nat
  ∧ occurs NUL longLine = false
  ∧ bufferText (Sample.clientRequest longLine) = None
  ∧ handleClient_recv (Sample.clientRequest longLine) Sample.oneMovie = None.
Proof. split_and!; by vm_compute. Qed.

End client_request.
